(** * ThreadPool (pool/threadpool.h, listed in src/code/main.cpp): an
      interleaving model

    The pool is a [std::shared_ptr<Pool>] shared between the owning
    [ThreadPool] object(s) and [threadCount] detached worker threads.
    Every statement of the header that touches shared state is one atomic
    transition of the thread that executes it; a schedule is the list of
    such transitions in the order in which they happen.

    - [std::mutex]              : [mtx], the thread that holds it, if any;
    - [std::condition_variable] : [cond], the set of workers blocked in
                                  [wait]; [wait] releases the mutex and
                                  enters the set in one atomic step, the
                                  worker re-acquires the mutex once it has
                                  left the set (notified, or spuriously);
    - [std::shared_ptr]         : [refs], the use count; the [Pool] is freed
                                  when it drops to zero;
    - a task that throws        : the exception leaves the thread function,
                                  so [std::terminate] ends the process.

    One thread, the owner, constructs, moves and destroys [ThreadPool]
    objects and calls [AddTask] (in the server this is the reactor thread);
    the workers run the lambda of the constructor.  A task is opaque: its
    invocation is one transition that returns or throws.  The front/pop pair
    of the worker is one transition, both being inside the critical
    section.

    The local [task] of the worker is destroyed at the closing brace of the
    if-block, after [locker.lock()]: the callable and what it captured are
    destroyed with the mutex held.  This is user code, as opaque as the
    invocation; it is taken to return and is the first part of the worker's
    next statement at the loop head.  Nothing below bounds the time for
    which a worker holds the mutex.

    The model follows one [Pool]: the objects of the owner refer to it or
    are null.  A program with several pools has one instance of the model
    for each, the owner being inside a call on at most one of them. *)

From stdpp Require Import base option list gmap.

(** ** Tasks *)

(** A [std::function<void()>]: the pool only observes whether an invocation
    returns or throws.  [label] tells tasks apart. *)
Inductive outcome := Returns | Throws.

Record Task := mkTask { label : nat; body : outcome }.

#[global] Instance outcome_eq_dec : EqDecision outcome.
Proof. solve_decision. Defined.

#[global] Instance Task_eq_dec : EqDecision Task.
Proof. solve_decision. Defined.

(** ** Threads and the shared [Pool] *)

Inductive thread := Owner | Worker (i : nat).

#[global] Instance thread_eq_dec : EqDecision thread.
Proof. solve_decision. Defined.

(** [struct Pool { mutex mtx; condition_variable cond; bool isClosed;
    queue<function<void()>> tasks; }], front of the queue first. *)
Record Pool := mkPool {
  mtx : option thread;
  cond : gset nat;
  isClosed : bool;
  tasks : list Task
}.

(** [std::make_shared<Pool>()] value-initialises: flag false, queue empty. *)
Definition make_shared : Pool := mkPool None ∅ false [].

Definition lock (th : thread) (p : Pool) : Pool :=
  mkPool (Some th) (cond p) (isClosed p) (tasks p).

Definition unlock (p : Pool) : Pool :=
  mkPool None (cond p) (isClosed p) (tasks p).

Definition set_cond (c : gset nat) (p : Pool) : Pool :=
  mkPool (mtx p) c (isClosed p) (tasks p).

Definition set_tasks (q : list Task) (p : Pool) : Pool :=
  mkPool (mtx p) (cond p) (isClosed p) q.

Definition close (p : Pool) : Pool :=
  mkPool (mtx p) (cond p) true (tasks p).

(** [cond.wait(locker)]: release the mutex and join the wait-set. *)
Definition wait (i : nat) (p : Pool) : Pool :=
  mkPool None ({[i]} ∪ cond p) (isClosed p) (tasks p).

(** [cond.notify_one()]: nothing when nobody waits, otherwise one waiting
    worker ([pick], chosen by the scheduler) leaves the wait-set. *)
Definition notify_one (pick : nat) (p : Pool) : option Pool :=
  if decide (cond p = ∅) then Some p
  else if decide (pick ∈ cond p) then Some (set_cond (cond p ∖ {[pick]}) p)
  else None.

(** [cond.notify_all()]. *)
Definition notify_all (p : Pool) : Pool := set_cond ∅ p.

(** ** Control points *)

(** Where a worker is in the lambda of the constructor. *)
Inductive wpc :=
| WStart               (* created; at [unique_lock locker(pool->mtx)] *)
| WLoop                (* head of [while(true)], mutex held; coming from
                          [locker.lock()], [task] is destroyed first *)
| WPopped (t : Task)   (* front moved out and popped; at [locker.unlock()] *)
| WRun (t : Task)      (* at [task()], mutex released *)
| WRelock              (* task returned; at [locker.lock()] *)
| WWait                (* inside [pool->cond.wait(locker)] *)
| WBreak               (* after [break], mutex held; at the end of the lambda *)
| WReturn              (* [locker] destroyed; the closure is destroyed next *)
| WExit                (* thread function returned, closure destroyed *)
| WAbort.              (* the task threw out of the thread function *)

#[global] Instance wpc_eq_dec : EqDecision wpc.
Proof. solve_decision. Defined.

(** Where the owning thread is.  [k] is the [ThreadPool] object whose
    destructor runs. *)
Inductive opc :=
| OCtor (i threadCount : N)   (* in the constructor loop, [i] threads made *)
| OIdle                       (* between calls *)
| OAddLock (t : Task)         (* [AddTask]: at [lock_guard locker(pool_->mtx)] *)
| OAddPush (t : Task)         (* at [pool_->tasks.emplace(...)] *)
| OAddUnlock                  (* at the end of the inner block *)
| OAddNotify                  (* at [pool_->cond.notify_one()] *)
| ODtorLock (k : nat)         (* [~ThreadPool]: at the [lock_guard] *)
| ODtorClose (k : nat)        (* at [pool_->isClosed = true] *)
| ODtorUnlock (k : nat)       (* at the end of the inner block *)
| ODtorNotify (k : nat)       (* at [pool_->cond.notify_all()] *)
| ODtorMember (k : nat).      (* body done; member [pool_] is destroyed *)

#[global] Instance opc_eq_dec : EqDecision opc.
Proof. solve_decision. Defined.

(** A [ThreadPool] object of the owning thread, by the value of [pool_]. *)
Inductive handle :=
| HPtr          (* [pool_] points to the pool *)
| HNull         (* [pool_] is null *)
| HDead.        (* the object has been destroyed *)

#[global] Instance handle_eq_dec : EqDecision handle.
Proof. solve_decision. Defined.

(** ** Program state *)

Record state := mkState {
  pool : option Pool;        (* the heap object, [None] when not allocated *)
  refs : nat;                (* use count of the control block *)
  objs : list handle;        (* the owner's [ThreadPool] objects *)
  owner : opc;
  workers : list wpc;        (* worker [i] is the [i]-th thread created *)
  terminated : bool;         (* [std::terminate] has been called *)
  (* history: what has been enqueued, dequeued and invoked, in order *)
  pushed : list Task;
  popped : list Task;
  ran : list Task
}.

Definition set_pool (p : Pool) (s : state) : state :=
  mkState (Some p) (refs s) (objs s) (owner s) (workers s) (terminated s)
          (pushed s) (popped s) (ran s).

Definition set_owner (o : opc) (s : state) : state :=
  mkState (pool s) (refs s) (objs s) o (workers s) (terminated s)
          (pushed s) (popped s) (ran s).

Definition set_objs (h : list handle) (s : state) : state :=
  mkState (pool s) (refs s) h (owner s) (workers s) (terminated s)
          (pushed s) (popped s) (ran s).

Definition set_worker (i : nat) (w : wpc) (s : state) : state :=
  mkState (pool s) (refs s) (objs s) (owner s) (<[i:=w]> (workers s))
          (terminated s) (pushed s) (popped s) (ran s).

(** One more owner of the control block (copying the [shared_ptr]). *)
Definition acquire (s : state) : state :=
  mkState (pool s) (S (refs s)) (objs s) (owner s) (workers s) (terminated s)
          (pushed s) (popped s) (ran s).

(** One owner less; the last one frees the [Pool]. *)
Definition release (s : state) : state :=
  mkState (if decide (pred (refs s) = 0) then None else pool s)
          (pred (refs s)) (objs s) (owner s) (workers s) (terminated s)
          (pushed s) (popped s) (ran s).

Definition spawn (s : state) : state :=
  mkState (pool s) (refs s) (objs s) (owner s) (workers s ++ [WStart])
          (terminated s) (pushed s) (popped s) (ran s).

Definition terminate (s : state) : state :=
  mkState (pool s) (refs s) (objs s) (owner s) (workers s) true
          (pushed s) (popped s) (ran s).

Definition log_push (t : Task) (s : state) : state :=
  mkState (pool s) (refs s) (objs s) (owner s) (workers s) (terminated s)
          (pushed s ++ [t]) (popped s) (ran s).

Definition log_pop (t : Task) (s : state) : state :=
  mkState (pool s) (refs s) (objs s) (owner s) (workers s) (terminated s)
          (pushed s) (popped s ++ [t]) (ran s).

Definition log_run (t : Task) (s : state) : state :=
  mkState (pool s) (refs s) (objs s) (owner s) (workers s) (terminated s)
          (pushed s) (popped s) (ran s ++ [t]).

(** ** Constructors *)

(** The default argument of [explicit ThreadPool(size_t threadCount = 8)]. *)
Definition default_threadCount : N := 8.

(** [explicit ThreadPool(size_t threadCount = 8)] up to the first loop test:
    [pool_] is initialised, the assertion is checked.  [None] is the failed
    [assert(threadCount > 0)]. *)
Definition ThreadPool_explicit (arg : option N) : option state :=
  let threadCount := default default_threadCount arg in
  if decide (0 < threadCount)%N
  then Some (mkState (Some make_shared) 1 [HPtr] (OCtor 0 threadCount) []
                     false [] [] [])
  else None.

(** [ThreadPool() = default]: [pool_] is a null [shared_ptr]. *)
Definition ThreadPool_default : state :=
  mkState None 0 [HNull] OIdle [] false [] [] [].

(** ** Transitions *)

Inductive action :=
| ActDefault                       (* the owner default-constructs an object *)
| ActMove (k : nat)                (* the owner move-constructs one from [k] *)
| ActAddTask (k : nat) (t : Task)  (* the owner calls [AddTask(t)] on [k] *)
| ActDestroy (k : nat)             (* the owner destroys object [k] *)
| ActOwner (pick : nat)            (* the owner executes its next statement *)
| ActWorker (i : nat)              (* worker [i] executes its next statement *)
| ActSpurious (i : nat).           (* worker [i] wakes up spuriously *)

(** The owner starts a call.  [AddTask] on a null [pool_] and any use of a
    destroyed object are undefined; the model gives them no transition.
    [ActDefault] covers [ThreadPool() = default]; as the header stands a call
    without arguments is ambiguous with [ThreadPool(size_t = 8)], so this
    transition only adds behaviour that no program shows. *)
Definition call_step (s : state) (a : action) : option state :=
  match owner s with
  | OIdle =>
    match a with
    | ActDefault => Some (set_objs (objs s ++ [HNull]) s)
    | ActMove k =>
      match objs s !! k with
      | Some HPtr => Some (set_objs (<[k:=HNull]> (objs s) ++ [HPtr]) s)
      | Some HNull => Some (set_objs (objs s ++ [HNull]) s)
      | _ => None
      end
    | ActAddTask k t =>
      match objs s !! k with
      | Some HPtr => Some (set_owner (OAddLock t) s)
      | _ => None
      end
    | ActDestroy k =>
      match objs s !! k with
      | Some HPtr => Some (set_owner (ODtorLock k) s)
      | Some HNull => Some (set_objs (<[k:=HDead]> (objs s)) s)
      | _ => None
      end
    | _ => None
    end
  | _ => None
  end.

(** The next statement of the owner. *)
Definition owner_step (s : state) (pick : nat) : option state :=
  match owner s with
  | OCtor i n =>
    if decide (i < n)%N
    then Some (set_owner (OCtor (i + 1) n) (spawn (acquire s)))
    else Some (set_owner OIdle s)
  | OIdle => None
  | OAddLock t =>
    p ← pool s;
    match mtx p with
    | None => Some (set_owner (OAddPush t) (set_pool (lock Owner p) s))
    | Some _ => None
    end
  | OAddPush t =>
    p ← pool s;
    Some (set_owner OAddUnlock
            (log_push t (set_pool (set_tasks (tasks p ++ [t]) p) s)))
  | OAddUnlock =>
    p ← pool s;
    Some (set_owner OAddNotify (set_pool (unlock p) s))
  | OAddNotify =>
    p ← pool s;
    p' ← notify_one pick p;
    Some (set_owner OIdle (set_pool p' s))
  | ODtorLock k =>
    p ← pool s;
    match mtx p with
    | None => Some (set_owner (ODtorClose k) (set_pool (lock Owner p) s))
    | Some _ => None
    end
  | ODtorClose k =>
    p ← pool s;
    Some (set_owner (ODtorUnlock k) (set_pool (close p) s))
  | ODtorUnlock k =>
    p ← pool s;
    Some (set_owner (ODtorNotify k) (set_pool (unlock p) s))
  | ODtorNotify k =>
    p ← pool s;
    Some (set_owner (ODtorMember k) (set_pool (notify_all p) s))
  | ODtorMember k =>
    Some (set_owner OIdle (release (set_objs (<[k:=HDead]> (objs s)) s)))
  end.

(** Worker [i] acquires the mutex and is at the head of the loop. *)
Definition worker_lock (s : state) (i : nat) : option state :=
  p ← pool s;
  match mtx p with
  | None => Some (set_worker i WLoop (set_pool (lock (Worker i) p) s))
  | Some _ => None
  end.

(** The next statement of worker [i], which is at [w].  At [WLoop] a worker
    that has run a task first destroys the callable (the closing brace of the
    if-block), then tests the queue; both with the mutex held. *)
Definition worker_step (s : state) (i : nat) (w : wpc) : option state :=
  match w with
  | WStart => worker_lock s i
  | WLoop =>
    p ← pool s;
    match tasks p with
    | t :: q =>
      Some (set_worker i (WPopped t) (log_pop t (set_pool (set_tasks q p) s)))
    | [] =>
      if isClosed p then Some (set_worker i WBreak s)
      else Some (set_worker i WWait (set_pool (wait i p) s))
    end
  | WPopped t =>
    p ← pool s;
    Some (set_worker i (WRun t) (set_pool (unlock p) s))
  | WRun t =>
    match body t with
    | Returns => Some (set_worker i WRelock (log_run t s))
    | Throws => Some (terminate (set_worker i WAbort (log_run t s)))
    end
  | WRelock => worker_lock s i
  | WWait =>
    p ← pool s;
    if decide (i ∈ cond p) then None else worker_lock s i
  | WBreak =>
    p ← pool s;
    Some (set_worker i WReturn (set_pool (unlock p) s))
  | WReturn => Some (release (set_worker i WExit s))
  | WExit => None
  | WAbort => None
  end.

Definition spurious (s : state) (i : nat) : option state :=
  p ← pool s;
  if decide (i ∈ cond p) then Some (set_pool (set_cond (cond p ∖ {[i]}) p) s)
  else None.

Definition step (s : state) (a : action) : option state :=
  if terminated s then None
  else match a with
       | ActOwner pick => owner_step s pick
       | ActWorker i => w ← workers s !! i; worker_step s i w
       | ActSpurious i => spurious s i
       | _ => call_step s a
       end.

(** The state after a schedule, if every action in it was enabled. *)
Fixpoint run (s : state) (acts : list action) : option state :=
  match acts with
  | [] => Some s
  | a :: acts' => s' ← step s a; run s' acts'
  end.

Inductive reachable (s0 : state) : state → Prop :=
| reach_init : reachable s0 s0
| reach_step s a s' : reachable s0 s → step s a = Some s' → reachable s0 s'.

(** The states a program can start from: after either constructor. *)
Definition initial (s0 : state) : Prop :=
  s0 = ThreadPool_default ∨ ∃ arg, ThreadPool_explicit arg = Some s0.

Definition reach (s : state) : Prop := ∃ s0, initial s0 ∧ reachable s0 s.

(** [ThreadPool pool(threadCount)] followed by a schedule. *)
Definition exec (threadCount : N) (acts : list action) : option state :=
  s0 ← ThreadPool_explicit (Some threadCount); run s0 acts.

(** ** Derived notions *)

(** The worker holds the mutex at these control points. *)
Definition holds (w : wpc) : bool :=
  match w with WLoop | WPopped _ | WBreak => true | _ => false end.

(** The owner holds the mutex at these control points. *)
Definition oholds (o : opc) : bool :=
  match o with
  | OAddPush _ | OAddUnlock | ODtorClose _ | ODtorUnlock _ => true
  | _ => false
  end.

(** The thread still owns its copy of the [shared_ptr] (the lambda capture
    dies when the thread function returns). *)
Definition alive (w : wpc) : nat :=
  match w with WExit => 0 | _ => 1 end.

Definition is_ptr (h : handle) : nat :=
  match h with HPtr => 1 | _ => 0 end.

(** The worker is past [break]. *)
Definition left_loop (w : wpc) : bool :=
  match w with WBreak | WReturn | WExit => true | _ => false end.

(** The task a worker has taken from the queue and not yet invoked. *)
Definition task_of (w : wpc) : option Task :=
  match w with WPopped t | WRun t => Some t | _ => None end.

Definition inflight (s : state) : list Task := omap task_of (workers s).

Definition queue (s : state) : list Task :=
  match pool s with Some p => tasks p | None => [] end.

Definition closed (s : state) : bool :=
  match pool s with Some p => isClosed p | None => false end.

(** The thread that holds the mutex. *)
Definition mutex (s : state) : option thread := p ← pool s; mtx p.

(** The workers blocked in [cond.wait]. *)
Definition waiting (s : state) : gset nat :=
  match pool s with Some p => cond p | None => ∅ end.

Definition handles (s : state) : nat := sum_list_with is_ptr (objs s).

Definition live_workers (s : state) : nat := sum_list_with alive (workers s).

(** The owner is inside [AddTask]. *)
Definition in_add (o : opc) : bool :=
  match o with
  | OAddLock _ | OAddPush _ | OAddUnlock | OAddNotify => true
  | _ => false
  end.

(** The object whose destructor the owner is running. *)
Definition in_dtor (o : opc) : option nat :=
  match o with
  | ODtorLock k | ODtorClose k | ODtorUnlock k | ODtorNotify k
  | ODtorMember k => Some k
  | _ => None
  end.

(** The destructor has set the flag. *)
Definition dtor_closed (o : opc) : bool :=
  match o with
  | ODtorUnlock _ | ODtorNotify _ | ODtorMember _ => true
  | _ => false
  end.

(** The destructor has set the flag and not yet notified. *)
Definition dtor_pending (o : opc) : bool :=
  match o with ODtorUnlock _ | ODtorNotify _ => true | _ => false end.

(** ** The invariant *)

(** What the owner's control point says about its objects and the thread
    table: the constructor has made as many threads as it has counted,
    [AddTask] and the destructor run on a non-null handle, and a pool that
    is in use has at least one thread. *)
Definition owner_ok (s : state) : Prop :=
  match owner s with
  | OCtor i n =>
    objs s = [HPtr] ∧ length (workers s) = N.to_nat i ∧ (i ≤ n)%N ∧ (0 < n)%N
  | OIdle => is_Some (pool s) → workers s ≠ []
  | OAddLock _ | OAddPush _ | OAddUnlock | OAddNotify =>
    handles s = 1 ∧ workers s ≠ []
  | ODtorLock k | ODtorClose k | ODtorUnlock k | ODtorNotify k
  | ODtorMember k => objs s !! k = Some HPtr ∧ workers s ≠ []
  end.

(** Worker [i] exists and is at a point where it holds the mutex. *)
Definition holder (ws : list wpc) (i : nat) : Prop :=
  ∃ w, ws !! i = Some w ∧ holds w = true.

(** [P] holds of the pool, if it is allocated. *)
Definition on_pool (s : state) (P : Pool → Prop) : Prop :=
  match pool s with Some p => P p | None => True end.

(** The invariant of the reachable states.
    - [inv_refs], [inv_one], [inv_alloc]: the use count counts the non-null
      handle (there is at most one) and the workers that have not returned;
      the [Pool] is allocated exactly while it is positive;
    - [inv_mtx_w], [inv_mtx_o]: the mutex is held by the thread whose control
      point is inside a critical section, and by no other;
    - [inv_cond]: the wait-set holds workers that are inside [wait];
    - [inv_hist], [inv_ran]: the histories account for every task;
    - [inv_exit]: a worker is past [break] only if the flag is set and the
      queue is empty;
    - [inv_closed], [inv_wake]: the flag is set only by the destructor, and
      after its [notify_all] nobody waits;
    - [inv_abort]: a worker is in a throw only if the process is terminated. *)
Record Inv (s : state) : Prop := {
  inv_refs : refs s = handles s + live_workers s;
  inv_one : handles s ≤ 1;
  inv_alloc : pool s = None ↔ refs s = 0;
  inv_owner : owner_ok s;
  inv_mtx_w : on_pool s (λ p, ∀ i,
    mtx p = Some (Worker i) ↔ holder (workers s) i);
  inv_mtx_o : on_pool s (λ p, mtx p = Some Owner ↔ oholds (owner s) = true);
  inv_cond : on_pool s (λ p, ∀ i, i ∈ cond p → workers s !! i = Some WWait);
  inv_hist : pushed s = popped s ++ queue s;
  inv_ran : popped s ≡ₚ ran s ++ inflight s;
  inv_exit : ∀ i w, workers s !! i = Some w → left_loop w = true →
    on_pool s (λ p, isClosed p = true ∧ tasks p = []);
  inv_closed : closed s = true →
    dtor_closed (owner s) = true ∨ (owner s = OIdle ∧ handles s = 0);
  inv_wake : on_pool s (λ p, isClosed p = true → cond p ≠ ∅ →
    dtor_pending (owner s) = true);
  inv_abort : ∀ i, workers s !! i = Some WAbort → terminated s = true
}.

(** The thread table after the constructor has made [i] of [n] threads. *)
Definition ctor_count (n : N) (s : state) : Prop :=
  match owner s with
  | OCtor i m => m = n ∧ length (workers s) = N.to_nat i ∧ (i ≤ n)%N
  | _ => length (workers s) = N.to_nat n
  end.

(** ** Shutdown: a bound on what remains to be done *)



(** Statements worker [w] still executes when the queue is empty and the
    pool is closed. *)
Definition rank (w : wpc) : nat :=
  match w with
  | WExit | WAbort => 0
  | WReturn => 1
  | WBreak => 2
  | WLoop => 3
  | WStart | WRelock | WWait => 4
  | WRun _ => 5
  | WPopped _ => 6
  end.



(** The flag is set, or the pool is gone. *)
Definition shut (s : state) : Prop := closed s = true ∨ pool s = None.

(** ** Wake-ups and the workers' backlog *)

(** Some worker is not blocked in [wait]. *)
Definition awake (s : state) : Prop :=
  ∃ i, i < length (workers s) ∧ i ∉ waiting s.

(** [AddTask] has enqueued and not yet notified. *)
Definition notify_pending (o : opc) : bool :=
  match o with OAddUnlock | OAddNotify => true | _ => false end.

(** A queued task finds a worker awake, or its [notify_one] is to come. *)
Definition no_lost_wakeup (s : state) : Prop :=
  queue s ≠ [] → awake s ∨ notify_pending (owner s) = true.

(** Owner or worker can take a step. *)
Definition can_step (s : state) : Prop :=
  (∃ pick s', step s (ActOwner pick) = Some s') ∨
  (∃ i s', step s (ActWorker i) = Some s').

Definition worker_act (a : action) : bool :=
  match a with ActWorker _ => true | _ => false end.

(** Statements the workers still execute on what is queued and held. *)
Definition backlog (s : state) : nat :=
  4 * length (queue s) + sum_list_with rank (workers s).

(** ** Worked schedules *)

Definition t1 : Task := mkTask 1 Returns.

Definition t2 : Task := mkTask 2 Returns.

Definition bad : Task := mkTask 0 Throws.

(** The state of a schedule that is known to run. *)
Definition after (threadCount : N) (acts : list action) : state :=
  default ThreadPool_default (exec threadCount acts).

(** Construct a pool of [n] workers: [n] loop iterations and the return. *)
Definition construct (n : nat) : list action := replicate (S n) (ActOwner 0).

(** A whole call of [AddTask(t)] on object 0, waking [pick] if need be. *)
Definition add_task (t : Task) (pick : nat) : list action :=
  [ActAddTask 0 t; ActOwner 0; ActOwner 0; ActOwner 0; ActOwner pick].

(** The whole destructor of object 0. *)
Definition destroy : list action :=
  [ActDestroy 0; ActOwner 0; ActOwner 0; ActOwner 0; ActOwner 0; ActOwner 0].

(** One worker; [t1] is queued and the worker has just popped it. *)
Definition sched_popped : list action :=
  construct 1 ++ add_task t1 0 ++ [ActWorker 0; ActWorker 0].

(** Two workers, one task: worker 0 takes it, the owner destroys the pool,
    worker 1 finds the queue empty and returns; [t1] has not run yet. *)
Definition sched_early_exit : list action :=
  construct 2 ++ add_task t1 0 ++ [ActWorker 0; ActWorker 0; ActWorker 0] ++
  destroy ++ [ActWorker 1; ActWorker 1; ActWorker 1; ActWorker 1].

(** One worker; a throwing task and then [t2] are queued; the worker takes
    the first and is about to invoke it. *)
Definition sched_before_throw : list action :=
  construct 1 ++ add_task bad 0 ++ add_task t2 0 ++
  [ActWorker 0; ActWorker 0; ActWorker 0].

(** The worker invokes the throwing task. *)
Definition sched_throw : list action := sched_before_throw ++ [ActWorker 0].

(** One worker, not yet waiting; [AddTask(t1)] has reached [notify_one]. *)
Definition sched_nobody_waits : list action :=
  construct 1 ++ [ActAddTask 0 t1; ActOwner 0; ActOwner 0; ActOwner 0].

(** One worker waits on the empty queue; [AddTask(t1)] has reached
    [notify_one]. *)
Definition sched_one_waits : list action :=
  construct 1 ++ [ActWorker 0; ActWorker 0] ++
  [ActAddTask 0 t1; ActOwner 0; ActOwner 0; ActOwner 0].

(** Two workers, [t1] queued, the destructor has run; no worker has started. *)
Definition sched_shutdown : list action :=
  construct 2 ++ add_task t1 0 ++ destroy.

(** Worker 0 takes and runs [t1], then both workers leave. *)
Definition sched_drain : list action :=
  [ActWorker 0; ActWorker 0; ActWorker 0; ActWorker 0; ActWorker 0;
   ActWorker 0; ActWorker 0; ActWorker 0;
   ActWorker 1; ActWorker 1; ActWorker 1; ActWorker 1].

(** One worker at the loop head, holding the mutex; [t1] is queued. *)
Definition sched_loop_head : list action :=
  construct 1 ++ add_task t1 0 ++ [ActWorker 0].

(** One worker has taken and run [t1] and waits on the empty queue. *)
Definition sched_served : list action :=
  sched_popped ++ [ActWorker 0; ActWorker 0; ActWorker 0; ActWorker 0].

(** After shutdown, all the workers' statements but the last [return]. *)
Definition sched_last_return : list action :=
  sched_shutdown ++ take 11 sched_drain.

(** One worker; the owner has entered the destructor of object 0. *)
Definition sched_dtor_entered : list action := construct 1 ++ [ActDestroy 0].

(** One worker has run [t1] and holds the mutex again ([locker.lock()] is
    done, the callable is to be destroyed); the owner calls [AddTask(t2)]. *)
Definition sched_caller_waits : list action :=
  sched_popped ++ [ActWorker 0; ActWorker 0; ActWorker 0] ++
  [ActAddTask 0 t2].

(** ** Properties that are refuted below *)

(** C1 as written: once some worker has returned, every submitted task has
    been invoked. *)
Definition drained_before_any_exit : Prop :=
  ∀ s i, reach s → workers s !! i = Some WExit → pushed s ≡ₚ ran s.

(** C3 as written: after a task has thrown, the process still runs and the
    worker that invoked the task does not hold the mutex. *)
Definition failure_confined : Prop :=
  ∀ s i t s', reach s → workers s !! i = Some (WRun t) → body t = Throws →
    step s (ActWorker i) = Some s' →
    terminated s' = false ∧ mutex s' ≠ Some (Worker i).

(** C4 as written: the [notify_one] of every [AddTask] takes exactly one
    worker out of the wait-set. *)
Definition add_task_wakes_exactly_one : Prop :=
  ∀ s pick s', reach s → owner s = OAddNotify →
    step s (ActOwner pick) = Some s' →
    ∃ i, i ∈ waiting s ∧ waiting s' = waiting s ∖ {[i]}.

(** C4 as written, the caller: inside [AddTask] the owner can always take
    its next statement. *)
Definition add_task_never_blocks : Prop :=
  ∀ s, reach s → terminated s = false → in_add (owner s) = true →
    ∃ pick s', step s (ActOwner pick) = Some s'.

(** ** Lists and sets *)

Section sum_list_with.
Context {A : Type} (f : A → nat).

Lemma sum_list_with_insert (l : list A) i x y :
  l !! i = Some x →
  sum_list_with f (<[i:=y]> l) + f x = sum_list_with f l + f y.
Proof.
  revert i. induction l as [|a l IH]; intros [|i] H; simplify_eq/=; [lia|].
  specialize (IH _ H). lia.
Qed.

Lemma sum_list_with_lookup (l : list A) i x :
  l !! i = Some x → f x ≤ sum_list_with f l.
Proof.
  revert i. induction l as [|a l IH]; intros [|i] H; simplify_eq/=; [lia|].
  specialize (IH _ H). lia.
Qed.

Lemma sum_list_with_insert' (l : list A) i x y :
  l !! i = Some x →
  sum_list_with f (<[i:=y]> l) = sum_list_with f l - f x + f y.
Proof.
  intros H. pose proof (sum_list_with_insert l i x y H).
  pose proof (sum_list_with_lookup l i x H). lia.
Qed.
End sum_list_with.

Lemma insert_non_nil {A} (l : list A) i x : l ≠ [] → <[i:=x]> l ≠ [].
Proof. destruct l, i; naive_solver. Qed.

Lemma insert_lookup_non_nil {A} (l : list A) i x y :
  l !! i = Some x → <[i:=y]> l ≠ [].
Proof. destruct l, i; naive_solver. Qed.

Lemma omap_insert_perm {A B} (f : A → option B) (l : list A) i x y :
  l !! i = Some x →
  option_list (f x) ++ omap f (<[i:=y]> l) ≡ₚ option_list (f y) ++ omap f l.
Proof.
  revert i. induction l as [|a l IH]; intros [|i] H; simplify_eq/=.
  - destruct (f x), (f y); simpl; try done. apply perm_swap.
  - specialize (IH _ H). destruct (f a); simpl; [|done].
    rewrite <- !Permutation_middle. by f_equiv.
Qed.

Lemma size_remove (X : gset nat) i : i ∈ X → size (X ∖ {[i]}) + 1 = size X.
Proof.
  intros H. rewrite size_difference by set_solver. rewrite size_singleton.
  assert (size X ≠ 0); [|lia]. intros Hz. apply size_empty_inv in Hz.
  set_solver.
Qed.

Lemma size_gset_empty : size (∅ : gset nat) = 0.
Proof. apply size_empty. Qed.

Lemma holder_insert_eq ws i w0 w :
  ws !! i = Some w0 → holder (<[i:=w]> ws) i ↔ holds w = true.
Proof.
  intros H. unfold holder.
  rewrite list_lookup_insert_eq by (by eapply lookup_lt_Some). naive_solver.
Qed.

Lemma holder_insert_ne ws i j w :
  j ≠ i → holder (<[i:=w]> ws) j ↔ holder ws j.
Proof. intros H. unfold holder. by rewrite list_lookup_insert_ne. Qed.

Lemma holder_snoc ws j : holder (ws ++ [WStart]) j ↔ holder ws j.
Proof.
  unfold holder. split; intros (w & Hw & Hh).
  - apply lookup_app_Some in Hw as [Hw | [? Hw]]; [by eauto|].
    apply list_lookup_singleton_Some in Hw as [? <-]. done.
  - exists w. split; [|done]. by apply lookup_app_l_Some.
Qed.

Lemma holder_lookup ws i w :
  ws !! i = Some w → holder ws i ↔ holds w = true.
Proof. unfold holder. naive_solver. Qed.

Lemma sum_alive_length ws :
  (∀ i, ws !! i ≠ Some WExit) → sum_list_with alive ws = length ws.
Proof.
  induction ws as [|w ws IH]; intros H; [done|]. simpl.
  rewrite IH by (intros i; apply (H (S i))).
  specialize (H 0). by destruct w.
Qed.

Lemma inflight_exited ws :
  (∀ i w, ws !! i = Some w → w = WExit) → omap task_of ws = [].
Proof.
  induction ws as [|w ws IH]; intros H; [done|].
  rewrite (H 0 w eq_refl). simpl. apply IH. intros i. apply (H (S i)).
Qed.

(** ** Tactics *)

(** Case analysis on an enabled transition. *)
Ltac step_inv H :=
  unfold step, call_step, owner_step, worker_step, worker_lock, spurious,
    notify_one in H; simpl in H;
  repeat match type of H with
  | None = Some _ => discriminate H
  | Some _ = Some _ => apply (inj Some) in H
  | context [decide ?P] => destruct (decide P)
  | mbind _ ?x = Some _ =>
    first [is_var x; destruct x as [[m c cl q]|] | destruct x eqn:?]; simpl in *
  | (if ?b then _ else _) = Some _ =>
    first [is_var b; destruct b | destruct b eqn:?]; simpl in *
  | (match ?x with _ => _ end) = Some _ =>
    first [is_var x; destruct x | destruct x eqn:?]; simpl in *
  end;
  subst; simpl in *.

(** The same, with the state and the invariant in terms of their fields. *)
Ltac prep H :=
  match type of H with
  | step ?s _ = _ => destruct s as [p r ob o ws tm pu po ra]
  end;
  unfold owner_ok, on_pool, handles, live_workers, inflight, queue,
    closed, mutex, waiting in *;
  simpl in *; step_inv H.

(** Sums over the thread table and the objects after an update. *)
Ltac sums :=
  rewrite ?sum_list_with_app; simpl;
  repeat (erewrite sum_list_with_insert' by eassumption);
  repeat match goal with
  | H : ?l !! ?i = Some ?x |- _ =>
    lazymatch type of x with
    | wpc => pose proof (sum_list_with_lookup alive l i x H)
    | handle => pose proof (sum_list_with_lookup is_ptr l i x H)
    end;
    revert H
  end; intros; simpl in *.

(** Which worker a lookup in the updated thread table refers to. *)
Ltac wcase Hj :=
  lazymatch type of Hj with
  | <[?i:=_]> _ !! ?j = Some _ =>
    destruct (decide (j = i)) as [->|];
    [ rewrite list_lookup_insert_eq in Hj by (eapply lookup_lt_Some; eauto);
      simplify_eq/=
    | rewrite list_lookup_insert_ne in Hj by done ]
  | (_ ++ [_]) !! _ = Some _ =>
    apply lookup_app_Some in Hj as [Hj | [? Hj]];
    [ | apply list_lookup_singleton_Some in Hj as [? ?]; simplify_eq/= ]
  | _ => idtac
  end.

(** Whether the worker that moves holds the mutex. *)
Ltac get_mtx Hmw :=
  repeat match goal with
  | Hl : ?ws !! ?i = Some ?w |- _ =>
    let E := fresh "Em" in
    pose proof (Hmw i) as E;
    rewrite (holder_lookup ws i w Hl) in E; simpl in E;
    revert Hl
  end; intros.

(** ** The invariant is preserved *)

Lemma step_refs s a s' :
  Inv s → step s a = Some s' → refs s' = handles s' + live_workers s'.
Proof.
  intros [Hr Ho _ Hw _ _ _ _ _ _ _ _ _] H.
  prep H; sums; destruct_and?; sums; lia.
Qed.

Lemma step_one s a s' : Inv s → step s a = Some s' → handles s' ≤ 1.
Proof.
  intros [Hr Ho _ Hw _ _ _ _ _ _ _ _ _] H.
  prep H; sums; destruct_and?; sums; lia.
Qed.

Lemma step_alloc s a s' :
  Inv s → step s a = Some s' → pool s' = None ↔ refs s' = 0.
Proof.
  intros [Hr Ho Ha Hw _ _ _ _ _ _ _ _ _] H.
  prep H; sums; try done; repeat case_decide; destruct_and?; simplify_eq/=;
    naive_solver lia.
Qed.

Lemma step_owner s a s' : Inv s → step s a = Some s' → owner_ok s'.
Proof.
  intros [Hr Ho Ha Hw _ _ _ _ _ _ _ _ _] H.
  prep H; sums; try done; try destruct o; destruct_and?;
    rewrite ?length_insert, ?length_app; simpl;
    repeat split; try apply insert_non_nil; eauto; try lia;
    try (lazymatch goal with |- _ → <[_:=_]> _ ≠ [] => intros _ end;
         eapply insert_lookup_non_nil; eauto).
  all: try (apply Hw; destruct p; [eauto | exfalso; naive_solver lia]).
  destruct ws; [simpl in *; lia | done].
Qed.

Lemma step_abort s a s' :
  Inv s → step s a = Some s' →
  ∀ i, workers s' !! i = Some WAbort → terminated s' = true.
Proof.
  intros [_ _ _ _ _ _ _ _ _ _ _ _ Hb] H.
  prep H; try done; intros j Hj; wcase Hj; eauto.
Qed.

Lemma step_mtx_o s a s' :
  Inv s → step s a = Some s' →
  on_pool s' (λ p, mtx p = Some Owner ↔ oholds (owner s') = true).
Proof.
  intros [Hr Ho Ha Hw Hmw Hmo _ _ _ _ _ _ _] H.
  prep H; repeat case_decide; simplify_eq/=; eauto; try get_mtx Hmw;
    naive_solver.
Qed.

Lemma step_mtx_w s a s' :
  Inv s → step s a = Some s' →
  on_pool s' (λ p, ∀ i, mtx p = Some (Worker i) ↔ holder (workers s') i).
Proof.
  intros [Hr Ho Ha Hw Hmw Hmo _ _ _ _ _ _ _] H.
  prep H; repeat case_decide; simplify_eq/=; try done;
    try (destruct p as [[m c cl q]|]; [simpl in *|done]); try get_mtx Hmw.
  all: lazymatch goal with |- ∀ _, _ => intros j | _ => idtac end.
  all: rewrite ?holder_snoc.
  all: try match goal with
       | |- context [holder (<[?i:=_]> _) ?j] =>
         destruct (decide (j = i)) as [->|];
         [ erewrite holder_insert_eq by eassumption
         | rewrite holder_insert_ne by done ]
       end.
  all: naive_solver.
Qed.

Lemma step_cond s a s' :
  Inv s → step s a = Some s' →
  on_pool s' (λ p, ∀ i, i ∈ cond p → workers s' !! i = Some WWait).
Proof.
  intros [Hr Ho Ha Hw Hmw Hmo Hc _ _ _ _ _ _] H.
  prep H; repeat case_decide; simplify_eq/=; try done;
    try (destruct p as [[m c cl q]|]; [simpl in *|done]).
  all: lazymatch goal with |- ∀ _, _ => intros j Hj | _ => intros Hj end.
  all: try match goal with
       | |- <[?i:=_]> _ !! ?j = _ =>
         destruct (decide (j = i)) as [->|];
         [ rewrite list_lookup_insert_eq by (by eapply lookup_lt_Some)
         | rewrite list_lookup_insert_ne by done ]
       | |- (_ ++ _) !! _ = _ => apply lookup_app_l_Some
       end.
  all: try done.
  all: try (by (apply Hc; set_solver)).
  all: by (apply Hc in Hj; congruence).
Qed.

Lemma step_hist s a s' :
  Inv s → step s a = Some s' → pushed s' = popped s' ++ queue s'.
Proof.
  intros [Hr Ho Ha Hw Hmw Hmo Hc Hh _ Hx _ _ _] H.
  prep H; repeat case_decide; simplify_eq/=; try done;
   rewrite <- ?(assoc_L (++)); try done.
  - destruct Hw as [Hk Hw]. destruct ws as [|w ws]; [done|].
    pose proof (sum_list_with_lookup is_ptr _ _ _ Hk). simpl in *.
    assert (w = WExit) as -> by (destruct w; simpl in *; done || lia).
    destruct p as [p|]; [|done]. by destruct (Hx 0 WExit) as [_ ->].
  - destruct p as [p|]; [|done]. by destruct (Hx _ _ Heqo0) as [_ ->].
Qed.

Lemma step_ran s a s' :
  Inv s → step s a = Some s' → popped s' ≡ₚ ran s' ++ inflight s'.
Proof.
  intros [Hr Ho Ha Hw Hmw Hmo Hc Hh Hn Hx _ _ _] H.
  prep H; repeat case_decide; simplify_eq/=; try done.
  all: try match goal with
  | Hl : ?ws !! ?i = Some ?w |- context [omap task_of (<[?i:=?w']> ?ws)] =>
    pose proof (omap_insert_perm task_of ws i w w' Hl) as Hperm; simpl in Hperm
  end.
  all: try (by rewrite Hperm).
  - rewrite omap_app. simpl. by rewrite (right_id_L [] (++)).
  - rewrite Hperm, <- Permutation_cons_append, Hn. apply Permutation_middle.
  - apply Permutation_cons_inv in Hperm. by rewrite Hperm.
  - rewrite Hn, <- Hperm, <- (assoc_L (++)). done.
  - rewrite Hn, <- Hperm, <- (assoc_L (++)). done.
Qed.

Lemma step_exit s a s' :
  Inv s → step s a = Some s' →
  ∀ i w, workers s' !! i = Some w → left_loop w = true →
  on_pool s' (λ p, isClosed p = true ∧ tasks p = []).
Proof.
  intros [Hr Ho Ha Hw Hmw Hmo Hc Hh Hn Hx Hcl _ _] H.
  prep H; repeat case_decide; simplify_eq/=; try done; intros j w Hj Hl;
    wcase Hj; try done; try (by eapply Hx).
  all: destruct (Hx _ _ Hj Hl); naive_solver.
Qed.

Lemma step_closed s a s' :
  Inv s → step s a = Some s' →
  closed s' = true →
  dtor_closed (owner s') = true ∨ (owner s' = OIdle ∧ handles s' = 0).
Proof.
  intros [Hr Ho Ha Hw Hmw Hmo Hc Hh Hn Hx Hcl _ _] H.
  prep H; repeat case_decide; simplify_eq/=; try done; destruct_and?; sums;
    naive_solver lia.
Qed.

Lemma step_wake s a s' :
  Inv s → step s a = Some s' →
  on_pool s' (λ p, isClosed p = true → cond p ≠ ∅ →
    dtor_pending (owner s') = true).
Proof.
  intros [Hr Ho Ha Hw Hmw Hmo Hc Hh Hn Hx Hcl Hk _] H.
  prep H; repeat case_decide; simplify_eq/=; try done;
    try (destruct p as [[m c cl q]|]; [simpl in *|done]);
    naive_solver.
Qed.

Lemma Inv_step s a s' : Inv s → step s a = Some s' → Inv s'.
Proof.
  intros I H. split.
  - by eapply step_refs.
  - by eapply step_one.
  - by eapply step_alloc.
  - by eapply step_owner.
  - by eapply step_mtx_w.
  - by eapply step_mtx_o.
  - by eapply step_cond.
  - by eapply step_hist.
  - by eapply step_ran.
  - by eapply step_exit.
  - by eapply step_closed.
  - by eapply step_wake.
  - by eapply step_abort.
Qed.

Lemma Inv_initial s0 : initial s0 → Inv s0.
Proof.
  intros [->|[arg H]].
  { split; try done; [cbv; lia | by intros []]. }
  unfold ThreadPool_explicit in H. case_decide; simplify_eq.
  split; try done; simpl.
  - unfold owner_ok. simpl. repeat split; try done. lia.
  - intros i. split; [done|]. intros (w & Hw & _). by rewrite lookup_nil in Hw.
Qed.

Lemma reachable_Inv s0 s : Inv s0 → reachable s0 s → Inv s.
Proof. intros I0. induction 1; [done|]. by eapply Inv_step. Qed.

Lemma reach_Inv s : reach s → Inv s.
Proof.
  intros (s0 & H0 & H). eapply reachable_Inv; [|done]. by apply Inv_initial.
Qed.

(** ** Schedules and reachability *)

Lemma run_snoc s0 acts a :
  run s0 (acts ++ [a]) = s ← run s0 acts; step s a.
Proof.
  revert s0. induction acts as [|b acts IH]; intros s0; simpl.
  { by destruct (step s0 a). }
  destruct (step s0 b); simpl; [apply IH|done].
Qed.

Lemma run_reachable s0 acts s : run s0 acts = Some s → reachable s0 s.
Proof.
  revert s. induction acts as [|a acts IH] using rev_ind; intros s H.
  { simplify_eq/=. constructor. }
  rewrite run_snoc in H. destruct (run s0 acts) as [s1|]; simplify_eq/=.
  econstructor; [by apply IH|done].
Qed.

Lemma reachable_run s0 s : reachable s0 s → ∃ acts, run s0 acts = Some s.
Proof.
  induction 1 as [|s a s' _ [acts IH] H]; [by exists []|].
  exists (acts ++ [a]). by rewrite run_snoc, IH.
Qed.

Lemma exec_reach n acts s : exec n acts = Some s → reach s.
Proof.
  unfold exec. intros H.
  destruct (ThreadPool_explicit (Some n)) as [s0|] eqn:E; simplify_eq/=.
  exists s0. split; [right; eauto|by eapply run_reachable].
Qed.



(** ** The process is terminated only by a task that threw *)



(** ** Shutdown: stability, measure, progress *)

Lemma shut_owner s :
  Inv s → shut s → dtor_closed (owner s) = true ∨ owner s = OIdle ∧ handles s = 0.
Proof.
  intros I [Hc|Hp]; [by apply (inv_closed _ I)|]. right.
  pose proof (inv_owner _ I) as Ho. pose proof (inv_refs _ I) as Hr.
  apply (inv_alloc _ I) in Hp. unfold owner_ok, handles in *.
  destruct (owner s); destruct_and?; simplify_eq/=; try lia;
    try (split; [done|lia]);
    try match goal with
    | H : _ !! _ = Some HPtr |- _ =>
      pose proof (sum_list_with_lookup is_ptr _ _ _ H); simpl in *; lia
    | H : objs _ = [HPtr] |- _ => rewrite H in Hr; simpl in Hr; lia
    end.
Qed.

Lemma shut_stable s a s' : Inv s → shut s → step s a = Some s' → shut s'.
Proof.
  intros I Hs H. pose proof (shut_owner s I Hs) as Hso. clear I.
  unfold shut in *.
  prep H; repeat case_decide; simplify_eq/=; eauto;
    try (by destruct Hso as [|[]]); try (by destruct Hs);
    (destruct Hs as [?|?]; [by left|done]).
Qed.




Lemma ctor_count_step n s a s' :
  ctor_count n s → step s a = Some s' → ctor_count n s'.
Proof.
  unfold ctor_count. intros Hc H.
  prep H; try done; try destruct o; destruct_and?;
    rewrite ?length_insert, ?length_app; simpl; try done.
  - split_and!; [done|lia|lia].
  - rewrite H1. f_equal. lia.
Qed.

(** ** The claims *)

(** C1, counterexample.  Two workers, one task: worker 0 has dequeued [t1]
    and released the mutex; the destructor has run; worker 1 found the queue
    empty and the flag set, and has returned.  [t1] has not been invoked. *)
Lemma worker_exits_before_task_runs :
  exec 2 sched_early_exit = Some (after 2 sched_early_exit) ∧
  workers (after 2 sched_early_exit) = [WRun t1; WExit] ∧
  pushed (after 2 sched_early_exit) = [t1] ∧
  ran (after 2 sched_early_exit) = [] ∧
  ¬ drained_before_any_exit.
Proof.
  split_and!; try (vm_compute; reflexivity).
  intros H. specialize (H (after 2 sched_early_exit) 1).
  assert (pushed (after 2 sched_early_exit) ≡ₚ ran (after 2 sched_early_exit))
    as Hp.
  { apply H; [|vm_compute; reflexivity].
    apply (exec_reach 2 sched_early_exit). vm_compute. reflexivity. }
  apply Permutation_length in Hp. vm_compute in Hp. discriminate.
Qed.

(** C1 (amended).  A worker leaves its loop only at the loop head in a state
    where the flag is set and the queue is empty.  So once some worker is
    past [break], every submitted task has been dequeued, and each one has
    been invoked or is held by the worker that dequeued it; once all workers
    have returned, every submitted task has been invoked. *)
Theorem drained_before_exit s :
  reach s →
  (∀ i s', workers s !! i = Some WLoop → step s (ActWorker i) = Some s' →
     workers s' !! i = Some WBreak → closed s = true ∧ queue s = []) ∧
  (∀ i w, workers s !! i = Some w → left_loop w = true →
     queue s = [] ∧ pushed s = popped s ∧
     pushed s ≡ₚ ran s ++ inflight s) ∧
  (workers s ≠ [] → (∀ i w, workers s !! i = Some w → w = WExit) →
     pushed s ≡ₚ ran s).
Proof.
  intros I%reach_Inv.
  assert (∀ i w, workers s !! i = Some w → left_loop w = true →
     queue s = [] ∧ pushed s = popped s ∧
     pushed s ≡ₚ ran s ++ inflight s) as Hleft.
  { intros i w Hw Hl. pose proof (inv_exit _ I i w Hw Hl) as Hx.
    pose proof (inv_hist _ I) as Hh. pose proof (inv_ran _ I) as Hr.
    assert (queue s = []) as Hq.
    { unfold on_pool, queue in *. destruct (pool s); [by destruct Hx|done]. }
    rewrite Hq, (right_id_L [] (++)) in Hh. by rewrite Hh. }
  split_and!; [|done|].
  - intros i s' Hw H Hw'. clear Hleft I. prep H; simplify_eq/=; try done.
    all: rewrite list_lookup_insert_eq in Hw' by (by eapply lookup_lt_Some).
    all: done.
  - intros Hne Hall. assert (∃ w, workers s !! 0 = Some w) as [w Hw0].
    { destruct (workers s); [done|by eexists]. }
    destruct (Hleft 0 w Hw0) as (_ & _ & Hp).
    { by rewrite (Hall 0 w). }
    unfold inflight in Hp. rewrite inflight_exited in Hp by done.
    by rewrite (right_id_L [] (++)) in Hp.
Qed.

Lemma drained_before_exit_witness :
  pushed (after 2 sched_early_exit) ≡ₚ
    ran (after 2 sched_early_exit) ++ inflight (after 2 sched_early_exit).
Proof.
  destruct (drained_before_exit (after 2 sched_early_exit)) as (_ & H & _).
  - apply (exec_reach 2 sched_early_exit). vm_compute. reflexivity.
  - apply (H 1 WExit); vm_compute; reflexivity.
Defined.



(** C3, counterexample.  One worker, tasks [bad] and [t2] submitted: the
    worker invokes [bad], which throws; the process is terminated, [t2] is
    still in the queue and no thread can take a step. *)
Lemma throwing_task_ends_process :
  exec 1 sched_throw = Some (after 1 sched_throw) ∧
  terminated (after 1 sched_throw) = true ∧
  queue (after 1 sched_throw) = [t2] ∧
  ran (after 1 sched_throw) = [bad] ∧
  (∀ a, step (after 1 sched_throw) a = None) ∧
  ¬ failure_confined.
Proof.
  split_and!; try (vm_compute; reflexivity).
  intros H.
  destruct (H (after 1 sched_before_throw) 0 bad (after 1 sched_throw))
    as [Ht _];
    try (vm_compute; reflexivity); [|vm_compute in Ht; discriminate].
  apply (exec_reach 1 sched_before_throw). vm_compute. reflexivity.
Qed.

(** C3 (amended).  When a task throws, the worker that invoked it does not
    hold the mutex, and the throw does not touch the mutex or the queue: no
    lock is left behind.  But nothing catches the exception: the process is
    terminated and no thread takes another step. *)
Theorem throwing_task_terminates s i t s' :
  reach s → workers s !! i = Some (WRun t) → body t = Throws →
  step s (ActWorker i) = Some s' →
  mutex s ≠ Some (Worker i) ∧ mutex s' = mutex s ∧ queue s' = queue s ∧
  terminated s' = true ∧ ∀ a, step s' a = None.
Proof.
  intros I%reach_Inv Hw Hb H. split.
  { pose proof (inv_mtx_w _ I) as Hmw. unfold on_pool, mutex in *.
    destruct (pool s) as [p|]; [|done]. simpl.
    rewrite Hmw, (holder_lookup _ _ _ Hw). done. }
  clear I. prep H; simplify_eq/=; try congruence.
  by split_and!.
Qed.

Lemma throwing_task_terminates_witness :
  terminated (after 1 sched_throw) = true ∧
  ∀ a, step (after 1 sched_throw) a = None.
Proof.
  destruct (throwing_task_terminates (after 1 sched_before_throw) 0 bad
              (after 1 sched_throw)) as (_ & _ & _ & H);
    try (vm_compute; reflexivity); [|exact H].
  apply (exec_reach 1 sched_before_throw). vm_compute. reflexivity.
Defined.

(** C4, counterexample.  One worker that has not started waiting yet:
    [AddTask(t1)] runs up to [notify_one] with an empty wait-set, and
    [notify_one] wakes nobody (the worker is still at its first statement).
    And the caller waits: a worker that has run [t1] has re-acquired the
    mutex and holds it (the callable is destroyed and the queue tested under
    it); [AddTask(t2)] is at its [lock_guard] and cannot take it. *)
Lemma add_task_wakes_nobody_and_waits :
  (exec 1 sched_nobody_waits = Some (after 1 sched_nobody_waits) ∧
   owner (after 1 sched_nobody_waits) = OAddNotify ∧
   waiting (after 1 sched_nobody_waits) = ∅ ∧
   step (after 1 sched_nobody_waits) (ActOwner 0) =
     Some (after 1 (sched_nobody_waits ++ [ActOwner 0])) ∧
   workers (after 1 (sched_nobody_waits ++ [ActOwner 0])) = [WStart] ∧
   ¬ add_task_wakes_exactly_one) ∧
  (exec 1 sched_caller_waits = Some (after 1 sched_caller_waits) ∧
   owner (after 1 sched_caller_waits) = OAddLock t2 ∧
   workers (after 1 sched_caller_waits) = [WLoop] ∧
   ran (after 1 sched_caller_waits) = [t1] ∧
   mutex (after 1 sched_caller_waits) = Some (Worker 0) ∧
   (∀ pick, step (after 1 sched_caller_waits) (ActOwner pick) = None) ∧
   ¬ add_task_never_blocks).
Proof.
  split; split_and!; try (vm_compute; reflexivity).
  - intros H.
    destruct (H (after 1 sched_nobody_waits) 0
                (after 1 (sched_nobody_waits ++ [ActOwner 0])))
      as (i & Hi & _); try (vm_compute; reflexivity).
    + apply (exec_reach 1 sched_nobody_waits). vm_compute. reflexivity.
    + vm_compute in Hi. set_solver.
  - intros H.
    destruct (H (after 1 sched_caller_waits)) as (pick & s' & Hs);
      try (vm_compute; reflexivity).
    + apply (exec_reach 1 sched_caller_waits). vm_compute. reflexivity.
    + vm_compute in Hs. discriminate Hs.
Qed.

(** C4 (amended).  [AddTask] on a non-null handle appends the task at the
    back of the queue while the owner holds the mutex, releases the mutex and
    then calls [notify_one], which takes exactly one worker out of the
    wait-set when somebody waits and does nothing otherwise; queue and thread
    table are untouched by it.  Every statement of [AddTask] but the
    [lock_guard] is always enabled; the [lock_guard] is enabled when the
    mutex is free and has to wait for as long as another thread holds it.
    A worker that holds the mutex is inside one of its critical sections: at
    the loop head, with a task just popped, or past [break]; never at
    [task()] or in [wait]. *)
Theorem add_task_spec s :
  reach s → terminated s = false →
  (∀ k t, owner s = OIdle → objs s !! k = Some HPtr →
     step s (ActAddTask k t) = Some (set_owner (OAddLock t) s)) ∧
  (∀ t pick, owner s = OAddLock t → mutex s = None →
     ∃ s', step s (ActOwner pick) = Some s' ∧ owner s' = OAddPush t ∧
           mutex s' = Some Owner ∧ queue s' = queue s) ∧
  (∀ t pick, owner s = OAddPush t →
     mutex s = Some Owner ∧
     ∃ s', step s (ActOwner pick) = Some s' ∧ owner s' = OAddUnlock ∧
           mutex s' = Some Owner ∧ queue s' = queue s ++ [t]) ∧
  (∀ pick, owner s = OAddUnlock →
     ∃ s', step s (ActOwner pick) = Some s' ∧ owner s' = OAddNotify ∧
           mutex s' = None ∧ queue s' = queue s) ∧
  (owner s = OAddNotify →
     (waiting s = ∅ → ∀ pick,
        ∃ s', step s (ActOwner pick) = Some s' ∧ owner s' = OIdle ∧
              waiting s' = ∅) ∧
     (∀ i, i ∈ waiting s →
        ∃ s', step s (ActOwner i) = Some s' ∧ owner s' = OIdle ∧
              waiting s' = waiting s ∖ {[i]} ∧
              size (waiting s') + 1 = size (waiting s)) ∧
     (∀ pick s', step s (ActOwner pick) = Some s' →
        workers s' = workers s ∧ queue s' = queue s ∧
        (waiting s = ∅ ∧ waiting s' = ∅ ∨
         pick ∈ waiting s ∧ waiting s' = waiting s ∖ {[pick]}))) ∧
  (∀ t pick, owner s = OAddLock t → mutex s ≠ None →
     step s (ActOwner pick) = None) ∧
  (∀ i, mutex s = Some (Worker i) →
     ∃ w, workers s !! i = Some w ∧
          (w = WLoop ∨ (∃ t, w = WPopped t) ∨ w = WBreak)).
Proof.
  intros I%reach_Inv Ht.
  pose proof (inv_owner _ I) as Ho. pose proof (inv_mtx_o _ I) as Hmo.
  pose proof (inv_mtx_w _ I) as Hmw. pose proof (inv_alloc _ I) as Ha.
  pose proof (inv_refs _ I) as Hr. clear I.
  destruct s as [p r ob o ws tm pu po ra].
  unfold step, call_step, owner_step, owner_ok, on_pool, mutex, waiting,
    queue, handles in *; simpl in *; subst tm.
  assert (o ≠ OIdle → in_add o = true → ∃ p0, p = Some p0) as Hp.
  { intros _ Hin. destruct p; [by eauto|]. destruct o; simplify_eq/=.
    all: destruct Ho; destruct Ha as [Ha _]; specialize (Ha eq_refl); lia. }
  split_and!.
  - intros k t -> Hk. by rewrite Hk.
  - intros t pick -> Hm. destruct Hp as [[m c cl q] ->]; try done.
    simpl in *. subst m. eexists. by split_and!.
  - intros t pick ->. destruct Hp as [[m c cl q] ->]; try done.
    simpl in *. split; [by apply Hmo|]. eexists. split_and!; try done.
    by apply Hmo.
  - intros pick ->. destruct Hp as [[m c cl q] ->]; try done.
    simpl in *. eexists. by split_and!.
  - intros ->. destruct Hp as [[m c cl q] ->]; try done.
    unfold notify_one. simpl in *. split_and!.
    + intros -> pick. rewrite decide_True by done. eexists. by split_and!.
    + intros i Hi. rewrite decide_False by set_solver.
      rewrite decide_True by done. eexists. split_and!; try done.
      by apply size_remove.
    + intros pick s' H. repeat case_decide; simplify_eq/=; split_and!;
        try done; eauto.
  - intros t pick -> Hm. destruct Hp as [[m c cl q] ->]; try done.
    simpl in *. by destruct m.
  - intros i Hm. destruct p as [[m c cl q]|]; simplify_eq/=.
    destruct (proj1 (Hmw i) eq_refl) as (w & Hw & Hh).
    exists w. split; [done|]. destruct w; simplify_eq/=; eauto.
Qed.

Lemma add_task_spec_witness :
  ∃ s', step (after 1 sched_one_waits) (ActOwner 0) = Some s' ∧
        owner s' = OIdle ∧
        waiting s' = waiting (after 1 sched_one_waits) ∖ {[0]} ∧
        size (waiting s') + 1 = size (waiting (after 1 sched_one_waits)).
Proof.
  destruct (add_task_spec (after 1 sched_one_waits)) as (_ & _ & _ & _ & H & _).
  - apply (exec_reach 1 sched_one_waits). vm_compute. reflexivity.
  - vm_compute. reflexivity.
  - destruct H as (_ & H & _); [vm_compute; reflexivity|].
    apply (H 0). vm_compute. reflexivity.
Defined.

(** C5.  No worker holds the mutex while it is at [task()].  A worker gets
    to [task()] only by [locker.unlock()], from the point where it held the
    mutex with the task popped; invoking the task leaves the mutex as it is
    and leads to [locker.lock()] (or ends the process); and a worker acquires
    the mutex only at the [unique_lock], at [locker.lock()] after its task
    has returned, or inside [wait]. *)
Theorem lock_released_around_task s a s' i t :
  reach s → step s a = Some s' →
  (workers s !! i = Some (WRun t) → mutex s ≠ Some (Worker i)) ∧
  (workers s !! i ≠ Some (WRun t) → workers s' !! i = Some (WRun t) →
     a = ActWorker i ∧ workers s !! i = Some (WPopped t) ∧
     mutex s = Some (Worker i) ∧ mutex s' = None) ∧
  (workers s !! i = Some (WRun t) → a = ActWorker i →
     mutex s' = mutex s ∧
     (workers s' !! i = Some WRelock ∨ terminated s' = true)) ∧
  (mutex s ≠ Some (Worker i) → mutex s' = Some (Worker i) →
     a = ActWorker i ∧ workers s' !! i = Some WLoop ∧
     (workers s !! i = Some WStart ∨ workers s !! i = Some WRelock ∨
      workers s !! i = Some WWait)).
Proof.
  intros [_ _ _ _ Hmw _ _ _ _ _ _ _ _]%reach_Inv H.
  split_and!.
  - intros Hi. unfold on_pool, mutex in *. destruct (pool s) as [p|]; [|done].
    simpl. rewrite Hmw, (holder_lookup _ _ _ Hi). done.
  - intros Hn Hi. prep H; try done; wcase Hi; try done.
    split_and!; try done. by rewrite Hmw, (holder_lookup _ _ _ Heqo0).
  - intros Hi ->. prep H; simplify_eq/=; try done.
    + split; [done|left].
      by rewrite list_lookup_insert_eq by (by eapply lookup_lt_Some).
    + split; [done|by right].
  - intros Hn Hi. prep H; simplify_eq/=; try done.
    all: try (destruct p as [[m c cl q]|]; simpl in *; done).
    all: try (case_decide; done).
    all: split_and!; try done;
      rewrite ?list_lookup_insert_eq by (by eapply lookup_lt_Some); eauto.
Qed.

Lemma lock_released_around_task_witness :
  mutex (after 1 sched_popped) = Some (Worker 0) ∧
  mutex (after 1 (sched_popped ++ [ActWorker 0])) = None.
Proof.
  pose proof (lock_released_around_task (after 1 sched_popped) (ActWorker 0)
           (after 1 (sched_popped ++ [ActWorker 0])) 0 t1) as H.
  destruct H as (_ & H & _).
  - apply (exec_reach 1 sched_popped). vm_compute. reflexivity.
  - vm_compute. reflexivity.
  - split; apply H; vm_compute; done.
Defined.



(** C7.  The use count is the number of non-null handles plus the number
    of workers that have not returned, and the [Pool] is freed exactly when
    it is zero: while some worker has not returned the [Pool] is allocated,
    whatever happened to the handles.  Every thread the constructor creates
    adds one to the count, and a worker at [task()] can always invoke its
    task; when the task returns, the worker is at [locker.lock()] with the
    [Pool] still allocated. *)
Theorem pool_outlives_handle s :
  reach s →
  refs s = handles s + live_workers s ∧
  (pool s = None ↔ refs s = 0) ∧
  (∀ i w, workers s !! i = Some w → w ≠ WExit → is_Some (pool s)) ∧
  (∀ i n pick s', owner s = OCtor i n → (i < n)%N →
     step s (ActOwner pick) = Some s' →
     refs s' = S (refs s) ∧ workers s' = workers s ++ [WStart]) ∧
  (∀ i t, workers s !! i = Some (WRun t) → terminated s = false →
     ∃ s', step s (ActWorker i) = Some s' ∧ ran s' = ran s ++ [t] ∧
           (body t = Returns → workers s' !! i = Some WRelock ∧
                               is_Some (pool s'))).
Proof.
  intros Hs. pose proof (reach_Inv _ Hs) as I.
  pose proof (inv_refs _ I) as Hr. pose proof (inv_alloc _ I) as Ha.
  assert (∀ i w, workers s !! i = Some w → w ≠ WExit → is_Some (pool s)) as Hl.
  { intros i w Hw Hne. destruct (decide (pool s = None)) as [E|E];
      [|by destruct (pool s); eauto].
    apply Ha in E. unfold live_workers in Hr.
    pose proof (sum_list_with_lookup alive _ _ _ Hw).
    destruct w; simpl in *; done || lia. }
  split_and!; try done.
  - intros i n pick s' Ho Hlt H. unfold step, owner_step in H.
    destruct (terminated s); [done|]. rewrite Ho in H.
    rewrite decide_True in H by done. by simplify_eq.
  - intros i t Hw Ht. unfold step. rewrite Ht, Hw. simpl.
    destruct (body t) eqn:Hb; eexists; (split; [done|]); split; try done.
    intros _. simpl.
    split; [by rewrite list_lookup_insert_eq by (by eapply lookup_lt_Some)|].
    by eapply Hl.
Qed.

Lemma pool_outlives_handle_witness :
  handles (after 2 sched_early_exit) = 0 ∧
  is_Some (pool (after 2 sched_early_exit)).
Proof.
  split; [vm_compute; reflexivity|].
  destruct (pool_outlives_handle (after 2 sched_early_exit))
    as (_ & _ & H & _).
  - apply (exec_reach 2 sched_early_exit). vm_compute. reflexivity.
  - apply (H 0 (WRun t1)); [vm_compute; reflexivity|discriminate].
Defined.

(** C8.  Inside the constructor, after [i] iterations the thread table has
    [i] entries, [i <= threadCount]; after the constructor it has exactly
    [threadCount] entries in every reachable state.  While the flag is not
    set, none of these threads has returned. *)
Theorem fixed_thread_count arg s0 s :
  ThreadPool_explicit arg = Some s0 → reachable s0 s →
  ctor_count (default default_threadCount arg) s ∧
  (closed s = false → is_Some (pool s) →
   live_workers s = length (workers s)).
Proof.
  intros H0 H. split.
  - induction H as [|s a s' _ IH Hs].
    + unfold ThreadPool_explicit in H0. case_decide; simplify_eq.
      unfold ctor_count. simpl. split_and!; [done|done|lia].
    + by eapply ctor_count_step.
  - assert (Inv s) as I.
    { eapply reachable_Inv; [|done]. apply Inv_initial. right. eauto. }
    intros Hc [p Hp]. apply sum_alive_length. intros i Hi.
    pose proof (inv_exit _ I i WExit Hi eq_refl) as Hx.
    unfold on_pool, closed in *. rewrite Hp in *. destruct Hx. congruence.
Qed.

Lemma fixed_thread_count_witness :
  length (workers (after 2 sched_early_exit)) = 2.
Proof.
  destruct (fixed_thread_count (Some 2%N)
              (after 2 []) (after 2 sched_early_exit)) as [H _].
  - vm_compute. reflexivity.
  - apply run_reachable with sched_early_exit. vm_compute. reflexivity.
  - revert H. vm_compute. intros H. exact H.
Defined.

(** C9.  [assert(threadCount > 0)]: for [threadCount >= 1] the constructor
    goes on with a fresh [Pool], one handle and an empty thread table; for
    [threadCount = 0] the assertion fails.  Without an argument [threadCount]
    is 8. *)
Theorem ctor_assertion (threadCount : N) :
  ((1 ≤ threadCount)%N →
   ThreadPool_explicit (Some threadCount) =
   Some (mkState (Some make_shared) 1 [HPtr] (OCtor 0 threadCount) []
                 false [] [] [])) ∧
  ((threadCount = 0)%N → ThreadPool_explicit (Some threadCount) = None) ∧
  ThreadPool_explicit None = ThreadPool_explicit (Some 8%N).
Proof.
  unfold ThreadPool_explicit. simpl. split_and!; [| |done].
  - intros H. by rewrite decide_True by lia.
  - intros ->. done.
Qed.

Lemma ctor_assertion_witness :
  ThreadPool_explicit (Some 3%N) =
    Some (mkState (Some make_shared) 1 [HPtr] (OCtor 0 3) [] false [] [] []) ∧
  ThreadPool_explicit (Some 0%N) = None.
Proof.
  split.
  - apply (proj1 (ctor_assertion 3)). lia.
  - apply (proj1 (proj2 (ctor_assertion 0))). reflexivity.
Defined.

(** C10.  A default-constructed object has a null [pool_] and no [Pool]
    exists; the source of a move is left with a null [pool_].  Destroying an
    object whose [pool_] is null only ends the object: [Pool], use count,
    threads and histories are as before, whether or not a [Pool] exists.  The
    body of the destructor is entered only for an object whose [pool_] is
    not null, and only the destructor's assignment sets the flag. *)
Theorem destroy_null_handle s :
  (objs ThreadPool_default = [HNull] ∧ pool ThreadPool_default = None) ∧
  (∀ k s', objs s !! k = Some HPtr → step s (ActMove k) = Some s' →
     objs s' !! k = Some HNull) ∧
  (∀ k, terminated s = false → owner s = OIdle → objs s !! k = Some HNull →
     step s (ActDestroy k) = Some (set_objs (<[k:=HDead]> (objs s)) s)) ∧
  (reach s → ∀ k, in_dtor (owner s) = Some k → objs s !! k = Some HPtr) ∧
  (∀ a s' k, step s a = Some s' → in_dtor (owner s') = Some k →
     in_dtor (owner s) = Some k ∨
     (a = ActDestroy k ∧ objs s !! k = Some HPtr)) ∧
  (∀ a s', step s a = Some s' → closed s = false → closed s' = true →
     ∃ k, owner s = ODtorClose k).
Proof.
  split_and!; try done.
  - intros k s' Hk H. prep H; simplify_eq/=.
    rewrite lookup_app_l.
    + rewrite list_lookup_insert_eq; [done|by eapply lookup_lt_Some].
    + rewrite length_insert. by eapply lookup_lt_Some.
  - intros k Ht Ho Hk. unfold step, call_step. by rewrite Ht, Ho, Hk.
  - intros I%reach_Inv k Hk. pose proof (inv_owner _ I) as Ho.
    unfold owner_ok in Ho. destruct (owner s); simplify_eq/=; by destruct Ho.
  - intros a s' k H Hk. prep H; simplify_eq/=; eauto.
  - intros a s' H Hc Hc'. prep H; simplify_eq/=; eauto;
      try (destruct p as [[m c cl q]|]; simplify_eq/=; done);
      try (case_decide; simplify_eq/=; congruence).
Qed.

Lemma destroy_null_handle_witness :
  step ThreadPool_default (ActDestroy 0) =
    Some (mkState None 0 [HDead] OIdle [] false [] [] []).
Proof.
  apply (proj1 (proj2 (proj2 (destroy_null_handle ThreadPool_default))) 0);
    reflexivity.
Defined.

(** ** Further properties of the pool *)

(** *** Who keeps the [Pool] allocated *)

Lemma live_worker_pool s i w :
  Inv s → workers s !! i = Some w → w ≠ WExit → is_Some (pool s).
Proof.
  intros I Hw Hne. destruct (decide (pool s = None)) as [E|E];
    [|by destruct (pool s); eauto].
  apply (inv_alloc _ I) in E. pose proof (inv_refs _ I) as Hr.
  unfold live_workers in Hr.
  pose proof (sum_list_with_lookup alive _ _ _ Hw).
  destruct w; simpl in *; done || lia.
Qed.

Lemma handle_pool s : Inv s → 0 < handles s → is_Some (pool s).
Proof.
  intros I Hh. destruct (decide (pool s = None)) as [E|E];
    [|by destruct (pool s); eauto].
  apply (inv_alloc _ I) in E. pose proof (inv_refs _ I). lia.
Qed.

Lemma busy_owner_handle s : Inv s → owner s ≠ OIdle → handles s = 1.
Proof.
  intros I Hne. pose proof (inv_owner _ I) as Ho. pose proof (inv_one _ I).
  unfold owner_ok, handles in *.
  destruct (owner s); destruct_and?; try done;
    try match goal with
    | H : _ !! _ = Some HPtr |- _ =>
      pose proof (sum_list_with_lookup is_ptr _ _ _ H); simpl in *; lia
    | H : objs _ = [HPtr] |- _ => by rewrite H
    end.
Qed.

Lemma busy_owner_pool s : Inv s → owner s ≠ OIdle → is_Some (pool s).
Proof.
  intros I Hne. apply handle_pool; [done|].
  rewrite (busy_owner_handle s I Hne). lia.
Qed.

Lemma all_exited ws :
  sum_list_with alive ws = 0 → ∀ i w, ws !! i = Some w → w = WExit.
Proof.
  intros H i w Hw. pose proof (sum_list_with_lookup alive _ _ _ Hw).
  destruct w; simpl in *; done || lia.
Qed.

Lemma freed_all_exited s :
  Inv s → pool s = None →
  handles s = 0 ∧ ∀ i w, workers s !! i = Some w → w = WExit.
Proof.
  intros I Hp. apply (inv_alloc _ I) in Hp. pose proof (inv_refs _ I) as Hr.
  split; [lia|]. apply all_exited. unfold live_workers in Hr. lia.
Qed.

Lemma free_clean s a s' pl :
  Inv s → step s a = Some s' → pool s = Some pl → pool s' = None →
  mtx pl = None ∧ cond pl = ∅ ∧ tasks pl = [].
Proof.
  intros I H Hp Hp'.
  destruct (freed_all_exited s' (Inv_step _ _ _ I H) Hp') as [Hh' Hall'].
  pose proof (inv_mtx_w _ I) as Hmw. pose proof (inv_mtx_o _ I) as Hmo.
  pose proof (inv_cond _ I) as Hc. pose proof (inv_owner _ I) as Ho.
  pose proof (busy_owner_handle s I) as Hbusy.
  assert (∃ i w, workers s !! i = Some w ∧ left_loop w = true)
    as (i0 & w0 & Hi0 & Hl0).
  { clear Hmw Hmo Hc Hbusy. prep H; simplify_eq/=; try done;
      repeat case_decide; simplify_eq/=; eauto.
    destruct Ho as [_ Ho]. destruct ws as [|w ws]; [done|].
    exists 0, w. split; [done|]. by rewrite (Hall' 0 w). }
  pose proof (inv_exit _ I _ _ Hi0 Hl0) as Hx.
  unfold on_pool in *. rewrite Hp in *. destruct Hx as [_ Hq].
  assert (∀ j w, workers s !! j = Some w → holds w = false ∧ w ≠ WWait) as Hnh.
  { clear Hmw Hmo Hc Hbusy Ho Hq Hi0. intros j w Hj.
    prep H; simplify_eq/=; try done; repeat case_decide; simplify_eq/=.
    - by rewrite (Hall' j w).
    - destruct (decide (j = i)) as [->|Hne]; [by simplify_eq|].
      rewrite (Hall' j w); [done|]. by rewrite list_lookup_insert_ne. }
  assert (oholds (owner s) = false) as Hno.
  { clear Hmw Hmo Hc Ho Hq Hi0 Hnh. prep H; simplify_eq/=; try done;
      repeat case_decide; simplify_eq/=; try done.
    destruct (decide (o = OIdle)) as [->|Hne]; [done|].
    specialize (Hbusy Hne). lia. }
  split_and!; [|apply set_eq; intros j; split; [|set_solver]|done].
  - destruct (mtx pl) as [[|j]|] eqn:Hm; [| |done].
    + destruct Hmo as [Hmo _]. rewrite Hmo in Hno; done.
    + destruct (proj1 (Hmw j) eq_refl) as (w & Hj & Hh).
      destruct (Hnh j w Hj). congruence.
  - intros Hj. destruct (Hnh j WWait (Hc j Hj)). done.
Qed.

(** *** The mutex and the shared data *)

(** X1.  Mutual exclusion.  At most one thread is inside a critical section
    of the pool: two workers that are at points where they hold the mutex
    are the same worker; while the owner is inside the critical section of
    [AddTask] or of the destructor the mutex is the owner's and no worker is
    at such a point; a worker at such a point owns the mutex and the owner
    is outside its critical sections; and a worker blocked in [cond.wait] is
    at the [wait] and does not hold the mutex. *)
Theorem mutual_exclusion s :
  reach s →
  (∀ i j w w', workers s !! i = Some w → workers s !! j = Some w' →
     holds w = true → holds w' = true → i = j) ∧
  (oholds (owner s) = true →
     mutex s = Some Owner ∧
     ∀ i w, workers s !! i = Some w → holds w = false) ∧
  (∀ i w, workers s !! i = Some w → holds w = true →
     mutex s = Some (Worker i) ∧ oholds (owner s) = false) ∧
  (∀ i, i ∈ waiting s →
     workers s !! i = Some WWait ∧ mutex s ≠ Some (Worker i)).
Proof.
  intros I%reach_Inv.
  pose proof (inv_mtx_w _ I) as Hmw. pose proof (inv_mtx_o _ I) as Hmo.
  pose proof (inv_cond _ I) as Hc.
  assert (∀ i w, workers s !! i = Some w → holds w = true →
            mutex s = Some (Worker i)) as Hhold.
  { intros i w Hw Hh. destruct (live_worker_pool s i w I Hw) as [p Hp].
    { by destruct w. }
    unfold on_pool, mutex in *. rewrite Hp in *. simpl.
    apply Hmw. by exists w. }
  assert (oholds (owner s) = true → mutex s = Some Owner) as Hown.
  { intros Ho. destruct (busy_owner_pool s I) as [p Hp].
    { by destruct (owner s). }
    unfold on_pool, mutex in *. rewrite Hp in *. simpl. by apply Hmo. }
  split_and!.
  - intros i j w w' Hi Hj Hw Hw'.
    pose proof (Hhold _ _ Hi Hw). pose proof (Hhold _ _ Hj Hw'). congruence.
  - intros Ho. split; [by apply Hown|]. intros i w Hi.
    destruct (holds w) eqn:Hw; [|done].
    pose proof (Hhold _ _ Hi Hw). pose proof (Hown Ho). congruence.
  - intros i w Hi Hw. split; [by eapply Hhold|].
    destruct (oholds (owner s)) eqn:Ho; [|done].
    pose proof (Hhold _ _ Hi Hw). pose proof (Hown eq_refl). congruence.
  - intros i Hi. unfold on_pool, waiting, mutex in *.
    destruct (pool s) as [p|]; [|set_solver]. simpl.
    pose proof (Hc i Hi) as Hw. split; [done|].
    rewrite Hmw, (holder_lookup _ _ _ Hw). done.
Qed.

Lemma mutual_exclusion_witness :
  mutex (after 1 sched_popped) = Some (Worker 0) ∧
  oholds (owner (after 1 sched_popped)) = false.
Proof.
  destruct (mutual_exclusion (after 1 sched_popped)) as (_ & _ & H & _).
  - apply (exec_reach 1 sched_popped). vm_compute. reflexivity.
  - apply (H 0 (WPopped t1)); vm_compute; reflexivity.
Defined.

(** X2.  The shared data is only written under the lock.  A transition
    that changes the task queue is a statement of the owner, who holds the
    mutex, or a statement of a worker that holds the mutex; a transition
    that changes [isClosed] of a [Pool] that goes on to exist is a statement
    of the owner, who holds the mutex. *)
Theorem shared_state_under_lock s a s' :
  reach s → step s a = Some s' →
  (queue s' ≠ queue s →
     ((∃ pick, a = ActOwner pick) ∧ mutex s = Some Owner) ∨
     (∃ i, a = ActWorker i ∧ mutex s = Some (Worker i))) ∧
  (closed s' ≠ closed s → is_Some (pool s') →
     (∃ pick, a = ActOwner pick) ∧ mutex s = Some Owner).
Proof.
  intros I%reach_Inv H. pose proof (step_hist _ _ _ I H) as Hh'.
  destruct I as [Hr Ho Ha Hw Hmw Hmo Hc Hh Hn Hx Hcl Hk Hb].
  split.
  - intros Hq. prep H; try done; repeat case_decide; simplify_eq/=;
      try (by apply app_inv_head in Hh').
    + left. split; [by eexists|]. by apply Hmo.
    + right. exists i. split; [done|].
      match goal with
      | Hl : ws !! i = Some _ |- _ => by rewrite Hmw, (holder_lookup _ _ _ Hl)
      end.
  - intros Hq Hp. prep H; try done; repeat case_decide; simplify_eq/=;
      try (by destruct Hp); try (by destruct p as [[]|]);
      try match goal with
      | E : _ = ?p, Hq : isClosed ?p ≠ _ |- _ => by rewrite <- E in Hq
      end.
    split; [by eexists|]. by apply Hmo.
Qed.

Lemma shared_state_under_lock_witness :
  ((∃ pick, ActWorker 0 = ActOwner pick) ∧
   mutex (after 1 sched_loop_head) = Some Owner) ∨
  (∃ i, ActWorker 0 = ActWorker i ∧
        mutex (after 1 sched_loop_head) = Some (Worker i)).
Proof.
  destruct (shared_state_under_lock (after 1 sched_loop_head) (ActWorker 0)
              (after 1 sched_popped)) as [H _].
  - apply (exec_reach 1 sched_loop_head). vm_compute. reflexivity.
  - vm_compute. reflexivity.
  - apply H. vm_compute. discriminate.
Defined.

(** *** Wake-ups *)

Lemma no_lost_wakeup_step s a s' :
  Inv s → no_lost_wakeup s → step s a = Some s' → no_lost_wakeup s'.
Proof.
  intros I Hn H.
  destruct I as [Hr Ho Ha Hw Hmw Hmo Hc Hh Hnn Hx Hcl Hk Hb].
  unfold no_lost_wakeup, awake in *.
  prep H; repeat case_decide; simplify_eq/=; try done; eauto;
    try (destruct p as [[m c cl q]|]; simpl in *; [|done]);
    rewrite ?length_insert, ?length_app; simpl; intros Hq;
    try (destruct Hn as [(j & Hj & Hnj)|Hp]; [done| |by right];
         left; exists j; split; [lia|set_solver]).
  - left. exists 0. split; [|set_solver].
    destruct Hw as [_ Hw]. destruct ws; [done|simpl; lia].
  - left. exists pick. split; [|set_solver].
    eapply lookup_lt_Some. by apply Hc.
Qed.

Lemma reach_no_lost_wakeup s : reach s → no_lost_wakeup s.
Proof.
  intros (s0 & H0 & H). pose proof (Inv_initial _ H0) as I0.
  induction H as [|s a s' Hr IH Hs].
  - destruct H0 as [->|[arg H0]]; [by intros ?|].
    unfold ThreadPool_explicit in H0. case_decide; simplify_eq. by intros ?.
  - eapply no_lost_wakeup_step; [|done|done]. by eapply reachable_Inv.
Qed.

Lemma awake_progress s i w :
  Inv s → terminated s = false →
  workers s !! i = Some w → i ∉ waiting s → left_loop w = false →
  can_step s.
Proof.
  intros [Hr Ho Ha Hw Hmw Hmo Hc Hh Hn Hx Hcl Hk Hb] Ht Hi Hnw Hl.
  unfold can_step.
  destruct s as [p r ob o ws tm pu po ra].
  unfold step, owner_step, worker_step, worker_lock, on_pool, waiting,
    handles, live_workers in *; simpl in *; subst tm.
  destruct p as [[m c cl q]|]; simpl in *.
  2:{ destruct Ha as [Ha _]. specialize (Ha eq_refl).
      pose proof (sum_list_with_lookup alive _ _ _ Hi).
      destruct w; simpl in *; done || lia. }
  destruct m as [[|j]|].
  - left. exists 0. destruct Hmo as [Hmo _]. specialize (Hmo eq_refl).
    destruct o; simplify_eq/=; eauto.
  - right. exists j. destruct (proj1 (Hmw j) eq_refl) as (w' & Hj & Hh').
    rewrite Hj. simpl. destruct w'; simplify_eq/=; eauto.
    destruct q; [destruct cl|]; eauto.
  - pose proof (Hmw i) as Hmi. rewrite (holder_lookup _ _ _ Hi) in Hmi.
    right. exists i. rewrite Hi. simpl.
    destruct w; simpl in *;
      try (by destruct Hmi as [_ Hmi]; specialize (Hmi eq_refl));
      try done; eauto.
    + destruct (body t); eauto.
    + rewrite decide_False by done. eauto.
    + specialize (Hb _ Hi). done.
Qed.

Lemma notify_pending_progress s :
  Inv s → terminated s = false → notify_pending (owner s) = true →
  ∃ pick s', step s (ActOwner pick) = Some s'.
Proof.
  intros I Ht Hp. destruct (busy_owner_pool s I) as [pl Hpl].
  { by destruct (owner s). }
  unfold step, owner_step. rewrite Ht, Hpl.
  destruct (owner s); simplify_eq/=; [exists 0; by eauto|].
  unfold notify_one. destruct (decide (cond pl = ∅)) as [|Hne].
  { exists 0. eauto. }
  apply set_choose_L in Hne as [j Hj]. exists j.
  rewrite decide_True by done. eauto.
Qed.

Lemma queued_awake s :
  Inv s → no_lost_wakeup s → queue s ≠ [] →
  (∃ i w, workers s !! i = Some w ∧ (i ∉ waiting s) ∧ left_loop w = false) ∨
  notify_pending (owner s) = true.
Proof.
  intros I Hn Hq. destruct (Hn Hq) as [(i & Hi & Hw)|]; [left|by right].
  destruct (lookup_lt_is_Some_2 _ _ Hi) as [w Hl].
  exists i, w. split_and!; try done.
  destruct (left_loop w) eqn:E; [|done].
  pose proof (inv_exit _ I i w Hl E) as Hx.
  unfold on_pool, queue in *. destruct (pool s); [by destruct Hx|done].
Qed.

(** X3.  No lost wake-up.  Whenever a task is queued, some worker that has
    not left its loop is not blocked in [cond.wait], or the [notify_one] of
    the [AddTask] that queued a task is still to come; so, unless a task has
    thrown, the owner or a worker can take a step: a queued task is never
    left with every worker asleep. *)
Theorem queued_task_is_served s :
  reach s → queue s ≠ [] →
  ((∃ i w, workers s !! i = Some w ∧ (i ∉ waiting s) ∧ left_loop w = false) ∨
   notify_pending (owner s) = true) ∧
  (terminated s = false →
   (∃ pick s', step s (ActOwner pick) = Some s') ∨
   (∃ i s', step s (ActWorker i) = Some s')).
Proof.
  intros Hs Hq. pose proof (reach_Inv _ Hs) as I.
  pose proof (queued_awake s I (reach_no_lost_wakeup s Hs) Hq) as Ha.
  split; [done|]. intros Ht.
  destruct Ha as [(i & w & Hi & Hw & Hl)|Hp].
  - by eapply awake_progress.
  - left. by apply notify_pending_progress.
Qed.

Lemma queued_task_is_served_witness :
  (∃ i w, workers (after 1 sched_nobody_waits) !! i = Some w ∧
          (i ∉ waiting (after 1 sched_nobody_waits)) ∧ left_loop w = false) ∨
  notify_pending (owner (after 1 sched_nobody_waits)) = true.
Proof.
  destruct (queued_task_is_served (after 1 sched_nobody_waits)) as [H _].
  - apply (exec_reach 1 sched_nobody_waits). vm_compute. reflexivity.
  - vm_compute. discriminate.
  - exact H.
Defined.

(** *** The workers between two calls of the owner *)

Lemma waiting_size s : Inv s → size (waiting s) ≤ length (workers s).
Proof.
  intros I. pose proof (inv_cond _ I) as Hc. unfold on_pool, waiting in *.
  destruct (pool s) as [p|]; [|rewrite size_empty; lia].
  rewrite <- (size_set_seq (C:=gset nat) 0 (length (workers s))).
  apply subseteq_size. intros i Hi. apply elem_of_set_seq.
  split; [lia|]. simpl. eapply lookup_lt_Some. by apply Hc.
Qed.

Lemma worker_step_backlog s i s' :
  Inv s → step s (ActWorker i) = Some s' →
  length (workers s') = length (workers s) ∧
  backlog s' + 3 * size (waiting s) < backlog s + 3 * size (waiting s').
Proof.
  intros I H.
  assert (pool s' = None → waiting s = ∅ ∧ queue s = []) as Hfree.
  { intros Hp'. unfold waiting, queue. destruct (pool s) as [pl|] eqn:Hp; [|done].
    by destruct (free_clean _ _ _ _ I H Hp Hp') as (_ & -> & ->). }
  pose proof (inv_cond _ I) as Hc. clear I. unfold backlog in *.
  prep H; repeat case_decide; simplify_eq/=;
    rewrite ?length_insert; (split; [done|]);
    try (destruct p as [[m c cl q]|]; simpl in * );
    try (destruct (Hfree eq_refl) as [-> ->]; simpl);
    repeat (erewrite sum_list_with_insert' by eassumption);
    repeat match goal with
    | H : ?l !! ?i = Some ?x |- _ =>
      pose proof (sum_list_with_lookup rank l i x H); revert H
    end; intros; simpl in *;
    rewrite ?size_gset_empty;
    try lia.
  assert (i ∉ c) as Hi by (intros Hin; apply Hc in Hin; congruence).
  rewrite size_union by set_solver. rewrite size_singleton. lia.
Qed.

Lemma worker_run_backlog s acts s' :
  Inv s → run s acts = Some s' → Forall (λ a, worker_act a = true) acts →
  Inv s' ∧ length (workers s') = length (workers s) ∧
  length acts + backlog s' + 3 * size (waiting s) ≤
    backlog s + 3 * size (waiting s').
Proof.
  revert s. induction acts as [|a acts IH]; intros s I H Hall; simplify_eq/=.
  { split_and!; [done|done|lia]. }
  destruct (step s a) as [s1|] eqn:E; simplify_eq/=.
  apply Forall_cons in Hall as [Ha Hall]. destruct a; try done.
  destruct (worker_step_backlog _ _ _ I E) as [Hl Hb].
  destruct (IH s1) as (I' & Hl' & Hb'); [by eapply Inv_step|done|done|].
  split_and!; [done|congruence|lia].
Qed.

(** X4.  The workers do not spin.  Between two actions of the owner (and
    without spurious wake-ups) the workers execute at most
    [backlog s + 3 * threads] statements: four per queued task, what is left
    of the tasks they hold, and the way to [cond.wait] or to the [return].
    Every schedule of worker statements is at most that long. *)
Theorem workers_quiesce s acts s' :
  reach s → run s acts = Some s' → Forall (λ a, worker_act a = true) acts →
  length acts ≤ backlog s + 3 * length (workers s).
Proof.
  intros I%reach_Inv H Hall.
  destruct (worker_run_backlog s acts s' I H Hall) as (I' & Hl & Hb).
  pose proof (waiting_size s' I'). lia.
Qed.

Lemma workers_quiesce_witness :
  length sched_drain ≤
    backlog (after 2 sched_shutdown) +
    3 * length (workers (after 2 sched_shutdown)).
Proof.
  apply (workers_quiesce (after 2 sched_shutdown) sched_drain
           (after 2 (sched_shutdown ++ sched_drain))).
  - apply (exec_reach 2 sched_shutdown). vm_compute. reflexivity.
  - vm_compute. reflexivity.
  - repeat constructor.
Defined.

Lemma omap_task_of_nil ws :
  (∀ i w, ws !! i = Some w → task_of w = None) → omap task_of ws = [].
Proof.
  induction ws as [|w ws IH]; intros H; [done|]. simpl.
  rewrite (H 0 w eq_refl). apply IH. intros i. apply (H (S i)).
Qed.

Lemma quiescent_workers s :
  Inv s → terminated s = false → owner s = OIdle →
  (∀ i, step s (ActWorker i) = None) →
  ∀ i w, workers s !! i = Some w → w = WExit ∨ (w = WWait ∧ i ∈ waiting s).
Proof.
  intros I Ht Ho Hno i w Hi.
  destruct (decide (i ∈ waiting s)) as [Hin|Hout].
  { right. split; [|done]. pose proof (inv_cond _ I) as Hc.
    unfold on_pool, waiting in *. destruct (pool s); [|set_solver].
    specialize (Hc i Hin). congruence. }
  destruct (left_loop w) eqn:Hl.
  - destruct (decide (w = WExit)) as [|Hne]; [by left|exfalso].
    destruct (live_worker_pool s i w I Hi Hne) as [pl Hp].
    specialize (Hno i). unfold step, worker_step in Hno.
    rewrite Ht, Hi, ?Hp in Hno. by destruct w; simplify_eq/=; rewrite ?Hp in Hno.
  - exfalso. destruct (awake_progress s i w I Ht Hi Hout Hl)
      as [(pick & s' & E)|(j & s' & E)].
    + unfold step, owner_step in E. by rewrite Ht, Ho in E.
    + by rewrite Hno in E.
Qed.

(** X5.  When nothing can move, everything has run.  If the owner is
    between calls and no worker can take a step (and no task has thrown),
    then the queue is empty, no worker holds a task, the invoked tasks are
    the submitted ones, and every worker has returned or is blocked in
    [cond.wait]. *)
Theorem quiescent_means_done s :
  reach s → terminated s = false → owner s = OIdle →
  (∀ i, step s (ActWorker i) = None) →
  queue s = [] ∧ inflight s = [] ∧ pushed s ≡ₚ ran s ∧
  ∀ i w, workers s !! i = Some w → w = WExit ∨ (w = WWait ∧ i ∈ waiting s).
Proof.
  intros Hs Ht Ho Hno. pose proof (reach_Inv _ Hs) as I.
  pose proof (quiescent_workers s I Ht Ho Hno) as Hw.
  assert (queue s = []) as Hq.
  { destruct (decide (queue s = [])) as [|Hne]; [done|exfalso].
    destruct (queued_awake s I (reach_no_lost_wakeup s Hs) Hne)
      as [(i & w & Hi & Hout & Hl)|Hp].
    - destruct (Hw i w Hi) as [->|[_ ?]]; done.
    - by rewrite Ho in Hp. }
  assert (inflight s = []) as Hf.
  { apply omap_task_of_nil. intros i w Hi.
    by destruct (Hw i w Hi) as [->|[-> _]]. }
  split_and!; try done.
  rewrite (inv_hist _ I), (inv_ran _ I), Hq, Hf.
  by rewrite !(right_id_L [] (++)).
Qed.

Lemma quiescent_means_done_witness :
  queue (after 1 sched_served) = [] ∧
  pushed (after 1 sched_served) ≡ₚ ran (after 1 sched_served).
Proof.
  destruct (quiescent_means_done (after 1 sched_served)) as (Hq & _ & Hp & _).
  - apply (exec_reach 1 sched_served). vm_compute. reflexivity.
  - vm_compute. reflexivity.
  - vm_compute. reflexivity.
  - intros [|i]; vm_compute; reflexivity.
  - split; [exact Hq|exact Hp].
Defined.

(** *** The life of the [Pool] and of the objects *)

(** X6.  The [Pool] is freed only when nothing can use it any more.  The
    transition that frees it drops the last reference (the use count is 1):
    it is the destruction of the member [pool_] at the end of the destructor
    or the return of a worker's thread function.  At that point the mutex is
    free, nobody waits and the queue is empty; afterwards no handle refers
    to the [Pool], every worker has returned and the invoked tasks are the
    submitted ones. *)
Theorem pool_freed_clean s a s' :
  reach s → step s a = Some s' → is_Some (pool s) → pool s' = None →
  ((∃ k pick, owner s = ODtorMember k ∧ a = ActOwner pick) ∨
   (∃ i, workers s !! i = Some WReturn ∧ a = ActWorker i)) ∧
  refs s = 1 ∧
  mutex s = None ∧ waiting s = ∅ ∧ queue s = [] ∧
  handles s' = 0 ∧ (∀ i w, workers s' !! i = Some w → w = WExit) ∧
  pushed s' ≡ₚ ran s'.
Proof.
  intros I%reach_Inv H [pl Hp] Hp'.
  destruct (free_clean _ _ _ _ I H Hp Hp') as (Hm & Hc & Hq).
  pose proof (Inv_step _ _ _ I H) as I'.
  destruct (freed_all_exited s' I' Hp') as [Hh' Hall'].
  assert (((∃ k pick, owner s = ODtorMember k ∧ a = ActOwner pick) ∨
           (∃ i, workers s !! i = Some WReturn ∧ a = ActWorker i)) ∧
          refs s = 1) as [Hwho Hone].
  { assert (refs s ≠ 0) as Hnz.
    { intros E. apply (inv_alloc _ I) in E. congruence. }
    clear I I' Hh' Hall' Hm Hc Hq.
    prep H; simplify_eq/=; repeat case_decide; simplify_eq/=;
      (split; [eauto|lia]). }
  unfold mutex, waiting, queue. rewrite Hp. simpl. split_and!; try done.
  rewrite (inv_hist _ I'), (inv_ran _ I'). unfold queue, inflight.
  rewrite Hp', inflight_exited by done. by rewrite !(right_id_L [] (++)).
Qed.

Lemma pool_freed_clean_witness :
  workers (after 2 sched_last_return) !! 1 = Some WReturn ∧
  refs (after 2 sched_last_return) = 1 ∧
  mutex (after 2 sched_last_return) = None ∧
  queue (after 2 sched_last_return) = [] ∧
  pushed (after 2 (sched_shutdown ++ sched_drain)) ≡ₚ
    ran (after 2 (sched_shutdown ++ sched_drain)).
Proof.
  destruct (pool_freed_clean (after 2 sched_last_return) (ActWorker 1)
              (after 2 (sched_shutdown ++ sched_drain)))
    as (_ & Hr & Hm & _ & Hq & _ & _ & Hp).
  - apply (exec_reach 2 sched_last_return). vm_compute. reflexivity.
  - vm_compute. reflexivity.
  - vm_compute. eexists. reflexivity.
  - vm_compute. reflexivity.
  - split; [vm_compute; reflexivity|].
    split; [exact Hr|split; [exact Hm|split; [exact Hq|exact Hp]]].
Defined.

(** X7.  [ThreadPool(ThreadPool&&)] transfers the pool.  At most one object
    refers to the [Pool].  A move leaves [Pool], use count and threads as
    they are and takes no further statement; the new object holds what the
    source held, the source holds null, the other objects are untouched, and
    the number of objects that refer to the [Pool] is the same. *)
Theorem move_transfers_ownership s :
  reach s →
  handles s ≤ 1 ∧
  ∀ k s', step s (ActMove k) = Some s' →
    pool s' = pool s ∧ refs s' = refs s ∧ workers s' = workers s ∧
    owner s' = OIdle ∧ handles s' = handles s ∧
    objs s' !! k = Some HNull ∧
    objs s' !! length (objs s) = objs s !! k ∧
    (∀ j, j ≠ k → j < length (objs s) → objs s' !! j = objs s !! j).
Proof.
  intros I%reach_Inv. split; [by apply (inv_one _ I)|].
  intros k s' H. clear I. prep H; simplify_eq/=; split_and!; try done.
  - unfold handles. simpl. rewrite sum_list_with_app.
    erewrite sum_list_with_insert' by eassumption. simpl.
    pose proof (sum_list_with_lookup is_ptr _ _ _ Heqo). simpl in *. lia.
  - rewrite lookup_app_l by (rewrite length_insert; by eapply lookup_lt_Some).
    by rewrite list_lookup_insert_eq by (by eapply lookup_lt_Some).
  - rewrite lookup_app_r by (by rewrite length_insert).
    by rewrite length_insert, Nat.sub_diag.
  - intros j Hne Hj. rewrite lookup_app_l by (by rewrite length_insert).
    by rewrite list_lookup_insert_ne.
  - unfold handles. simpl. rewrite sum_list_with_app. simpl. lia.
  - by apply lookup_app_l_Some.
  - by rewrite lookup_app_r, Nat.sub_diag by done.
  - intros j Hne Hj. by rewrite lookup_app_l.
Qed.

Lemma move_transfers_ownership_witness :
  handles (after 1 (construct 1 ++ [ActMove 0])) =
    handles (after 1 (construct 1)) ∧
  objs (after 1 (construct 1 ++ [ActMove 0])) !! 0 = Some HNull.
Proof.
  destruct (move_transfers_ownership (after 1 (construct 1))) as [_ H].
  - apply (exec_reach 1 (construct 1)). vm_compute. reflexivity.
  - destruct (H 0 (after 1 (construct 1 ++ [ActMove 0])))
      as (_ & _ & _ & _ & Hh & Hk & _).
    + vm_compute. reflexivity.
    + split; [exact Hh|exact Hk].
Defined.

Lemma shut_step_hist s a s' :
  Inv s → shut s → step s a = Some s' →
  pushed s' = pushed s ∧ ∃ l, popped s' = popped s ++ l.
Proof.
  intros I Hs H. pose proof (shut_owner s I Hs) as Hso. clear I Hs.
  prep H; simplify_eq/=; try (by destruct Hso as [|[]]);
    (split; [done|]); try (by exists []; rewrite (right_id_L [] (++))).
  by eexists.
Qed.

Lemma shut_run_hist s acts s' :
  Inv s → shut s → run s acts = Some s' →
  Inv s' ∧ shut s' ∧ pushed s' = pushed s ∧ ∃ l, popped s' = popped s ++ l.
Proof.
  revert s. induction acts as [|a acts IH]; intros s I Hs H; simplify_eq/=.
  { split_and!; try done. exists []. by rewrite (right_id_L [] (++)). }
  destruct (step s a) as [s1|] eqn:E; simplify_eq/=.
  destruct (shut_step_hist _ _ _ I Hs E) as (Hp & l & Hl).
  destruct (IH s1) as (I' & Hs' & Hp' & l' & Hl');
    [by eapply Inv_step|by eapply shut_stable|done|].
  split_and!; try done; [congruence|].
  exists (l ++ l'). by rewrite Hl', Hl, (assoc_L (++)).
Qed.

(** X8.  After [isClosed] is set the queue only shrinks.  In every
    schedule from a state with the flag set, the flag stays set for as long
    as the [Pool] exists, nothing is submitted any more, and what has left
    the queue is a prefix of the queue as it was, dequeued in that order. *)
Theorem no_submission_after_close s acts s' :
  reach s → closed s = true → run s acts = Some s' →
  (closed s' = true ∨ pool s' = None) ∧
  pushed s' = pushed s ∧
  ∃ pre, queue s = pre ++ queue s' ∧ popped s' = popped s ++ pre.
Proof.
  intros I%reach_Inv Hc H.
  destruct (shut_run_hist s acts s' I (or_introl Hc) H)
    as (I' & Hs' & Hp & l & Hl).
  split_and!; try done. exists l. split; [|done].
  pose proof (inv_hist _ I) as Hh. pose proof (inv_hist _ I') as Hh'.
  rewrite Hp, Hl, Hh, <- (assoc_L (++)) in Hh'. by apply app_inv_head in Hh'.
Qed.

Lemma no_submission_after_close_witness :
  pushed (after 2 (sched_shutdown ++ sched_drain)) =
    pushed (after 2 sched_shutdown).
Proof.
  destruct (no_submission_after_close (after 2 sched_shutdown) sched_drain
              (after 2 (sched_shutdown ++ sched_drain))) as (_ & H & _).
  - apply (exec_reach 2 sched_shutdown). vm_compute. reflexivity.
  - vm_compute. reflexivity.
  - vm_compute. reflexivity.
  - exact H.
Defined.

(** X10.  Constructor and destructor do not wait for the workers (the
    threads are detached, there is no [join]).  Unless a task has thrown,
    every iteration of the constructor loop and its exit are enabled; the
    destructor's [lock_guard] is enabled as soon as the mutex is free and
    its other statements are always enabled; and the statements of the
    destructor leave the queue, the tasks held by workers and the control
    points of the workers as they are: tasks that are still queued when the
    destructor runs are left to the workers. *)
Theorem lifecycle_never_waits s :
  reach s → terminated s = false →
  (∀ i n, owner s = OCtor i n →
     ∃ s', step s (ActOwner 0) = Some s' ∧ pool s' = pool s ∧
           (if decide (i < n)%N then owner s' = OCtor (i + 1) n
            else owner s' = OIdle)) ∧
  (∀ k, owner s = ODtorLock k → mutex s = None →
     ∃ s', step s (ActOwner 0) = Some s' ∧ owner s' = ODtorClose k) ∧
  (∀ k, owner s = ODtorClose k ∨ owner s = ODtorUnlock k ∨
        owner s = ODtorNotify k ∨ owner s = ODtorMember k →
     ∃ s', step s (ActOwner 0) = Some s') ∧
  (∀ pick s', is_Some (in_dtor (owner s)) →
     step s (ActOwner pick) = Some s' →
     queue s' = queue s ∧ inflight s' = inflight s ∧ workers s' = workers s).
Proof.
  intros I%reach_Inv Ht. split_and!.
  - intros i n Ho. unfold step, owner_step. rewrite Ht, Ho.
    case_decide; eexists; split_and!; try done.
  - intros k Ho Hm. destruct (busy_owner_pool s I) as [pl Hp].
    { by rewrite Ho. }
    unfold step, owner_step, mutex in *. rewrite Ht, Ho, Hp in *. simpl in *.
    rewrite Hm. by eexists.
  - intros k Ho. destruct (busy_owner_pool s I) as [pl Hp].
    { by destruct Ho as [-> | [-> | [-> | ->]]]. }
    unfold step, owner_step. rewrite Ht.
    destruct Ho as [-> | [-> | [-> | ->]]]; rewrite ?Hp; simpl; by eexists.
  - intros pick s' Hd H. pose proof (step_hist _ _ _ I H) as Hh'.
    pose proof (inv_hist _ I) as Hh. clear I.
    prep H; simplify_eq/=; try (by destruct Hd); split_and!; try done.
Qed.

Lemma lifecycle_never_waits_witness :
  ∃ s', step (after 1 sched_dtor_entered) (ActOwner 0) = Some s' ∧
        owner s' = ODtorClose 0.
Proof.
  destruct (lifecycle_never_waits (after 1 sched_dtor_entered))
    as (_ & H & _).
  - apply (exec_reach 1 sched_dtor_entered). vm_compute. reflexivity.
  - vm_compute. reflexivity.
  - apply (H 0); vm_compute; reflexivity.
Defined.




(** *** One worker *)

Lemma one_worker_lookup (ws : list wpc) i w :
  length ws ≤ 1 → ws !! i = Some w → ws = [w] ∧ i = 0.
Proof.
  intros Hl Hi. destruct ws as [|w0 [|]]; simpl in *; [done| |lia].
  destruct i; simplify_eq/=; done.
Qed.

Lemma single_worker_step s a s' :
  step s a = Some s' → length (workers s') ≤ 1 →
  length (workers s) ≤ 1 ∧
  (popped s = ran s ++ inflight s → popped s' = ran s' ++ inflight s').
Proof.
  intros H Hl. prep H; simplify_eq/=; try done;
    rewrite ?length_insert, ?length_app in Hl; simpl in Hl;
    (split; [lia|]); intros Hp;
    try match goal with
    | Hw : _ !! _ = Some _ |- _ =>
      destruct (one_worker_lookup _ _ _ Hl Hw) as [-> ->]
    end; simpl in *; rewrite ?(right_id_L [] (++)) in *; try done.
  - destruct ws; [done|simpl in *; lia].
  - by rewrite Hp.
Qed.

Lemma single_worker_order s0 s :
  initial s0 → reachable s0 s → length (workers s) ≤ 1 →
  popped s = ran s ++ inflight s.
Proof.
  intros H0 H. induction H as [|s a s' Hr IH Hs]; intros Hl.
  - destruct H0 as [->|[arg H0]]; [done|].
    unfold ThreadPool_explicit in H0. by case_decide; simplify_eq.
  - destruct (single_worker_step _ _ _ Hs Hl) as [Hl' Hp]. by apply Hp, IH.
Qed.

Lemma reachable_ctor_count arg s0 s :
  ThreadPool_explicit arg = Some s0 → reachable s0 s →
  ctor_count (default default_threadCount arg) s.
Proof.
  intros H0 H. induction H as [|s a s' _ IH Hs].
  - unfold ThreadPool_explicit in H0. case_decide; simplify_eq.
    unfold ctor_count. simpl. split_and!; [done|done|lia].
  - by eapply ctor_count_step.
Qed.

(** X12.  A pool of one thread runs the tasks in the order of submission.
    In every state reachable from [ThreadPool(1)], at most one task is held
    by the worker, and the submitted tasks are: the invoked ones, in the
    order of their invocation, then the one the worker holds, then the
    queue.  When the queue is empty and no task is held, the tasks have been
    invoked exactly in the order in which they were submitted. *)
Theorem single_worker_runs_in_order s0 s :
  ThreadPool_explicit (Some 1%N) = Some s0 → reachable s0 s →
  length (inflight s) ≤ 1 ∧
  popped s = ran s ++ inflight s ∧
  pushed s = ran s ++ inflight s ++ queue s ∧
  (queue s = [] → inflight s = [] → ran s = pushed s).
Proof.
  intros H0 H. pose proof (reachable_ctor_count _ _ _ H0 H) as Hc.
  assert (initial s0) as Hi by (right; eauto).
  assert (length (workers s) ≤ 1) as Hl.
  { unfold ctor_count in Hc. simpl in Hc.
    destruct (owner s); destruct_and?; lia. }
  pose proof (single_worker_order _ _ Hi H Hl) as Hp.
  pose proof (inv_hist _ (reachable_Inv _ _ (Inv_initial _ Hi) H)) as Hh.
  split_and!.
  - unfold inflight. destruct (workers s) as [|w [|]]; simpl in *; [lia| |lia].
    destruct (task_of w); simpl; lia.
  - done.
  - by rewrite Hh, Hp, <- (assoc_L (++)).
  - intros Hq Hf. by rewrite Hh, Hp, Hq, Hf, !(right_id_L [] (++)).
Qed.

Lemma single_worker_runs_in_order_witness :
  pushed (after 1 sched_served) =
    ran (after 1 sched_served) ++ inflight (after 1 sched_served) ++
    queue (after 1 sched_served).
Proof.
  destruct (single_worker_runs_in_order (after 1 []) (after 1 sched_served))
    as (_ & _ & H & _).
  - vm_compute. reflexivity.
  - apply run_reachable with sched_served. vm_compute. reflexivity.
  - exact H.
Defined.

(** *** The wait loop *)

(** X13.  The wait loop.  A worker enters the wait-set only by its own
    statement at the loop head, with the queue empty and the flag not set,
    and in doing so gives up the mutex it held.  It leaves the wait-set (of
    a [Pool] that goes on to exist) only by a spurious wake-up, by the
    [notify_one] of [AddTask] that picks it, or by the [notify_all] of the
    destructor; none of these touches queue, mutex or control points, so the
    worker is still at the [wait].  From there its next statement is enabled
    only once it is out of the wait-set and the mutex is free, and takes it
    to the loop head holding the mutex, where the conditions are tested
    again. *)
Theorem wait_loop s a s' i :
  reach s → step s a = Some s' →
  ((i ∉ waiting s) → i ∈ waiting s' →
     a = ActWorker i ∧ workers s !! i = Some WLoop ∧
     queue s = [] ∧ closed s = false ∧
     mutex s = Some (Worker i) ∧ mutex s' = None) ∧
  (i ∈ waiting s → (i ∉ waiting s') → is_Some (pool s') →
     (a = ActSpurious i ∨
      (owner s = OAddNotify ∧ a = ActOwner i) ∨
      (∃ k pick, owner s = ODtorNotify k ∧ a = ActOwner pick)) ∧
     queue s' = queue s ∧ mutex s' = mutex s ∧ workers s' = workers s ∧
     workers s' !! i = Some WWait) ∧
  (workers s !! i = Some WWait → a = ActWorker i →
     (i ∉ waiting s) ∧ mutex s = None ∧
     mutex s' = Some (Worker i) ∧ workers s' !! i = Some WLoop).
Proof.
  intros I%reach_Inv H.
  pose proof (inv_mtx_w _ I) as Hmw. pose proof (inv_cond _ I) as Hc.
  split_and!.
  - intros Hn Hi. clear I. prep H; simplify_eq/=; try done;
      repeat case_decide; simplify_eq/=;
      try (destruct p as [[m c cl q]|]; simpl in * ); try set_solver.
    assert (i = i0) as -> by set_solver.
    split_and!; try done.
    match goal with
    | Hl : ws !! i0 = Some _ |- _ => by rewrite Hmw, (holder_lookup _ _ _ Hl)
    end.
  - intros Hi Hn Hp. pose proof I as I0. clear I.
    prep H; simplify_eq/=; try done;
      repeat case_decide; simplify_eq/=; try (by destruct Hp);
      try (destruct p as [[m c cl q]|]; simpl in * ); try set_solver.
    + assert (i = pick) as ->.
      { destruct (decide (i = pick)); [done|set_solver]. }
      split_and!; eauto.
    + assert (i = i0) as ->.
      { destruct (decide (i = i0)); [done|set_solver]. }
      split_and!; eauto.
  - intros Hw ->. clear I. prep H; simplify_eq/=; try done;
      repeat case_decide; simplify_eq/=.
    split_and!; try done.
    by rewrite list_lookup_insert_eq by (by eapply lookup_lt_Some).
Qed.

Lemma wait_loop_witness :
  queue (after 1 (sched_one_waits ++ [ActOwner 0])) =
    queue (after 1 sched_one_waits) ∧
  workers (after 1 (sched_one_waits ++ [ActOwner 0])) !! 0 = Some WWait.
Proof.
  destruct (wait_loop (after 1 sched_one_waits) (ActOwner 0)
              (after 1 (sched_one_waits ++ [ActOwner 0])) 0) as (_ & H & _).
  - apply (exec_reach 1 sched_one_waits). vm_compute. reflexivity.
  - vm_compute. reflexivity.
  - destruct H as (_ & Hq & _ & _ & Hw).
    + vm_compute. reflexivity.
    + vm_compute. discriminate.
    + vm_compute. eexists. reflexivity.
    + split; [exact Hq|exact Hw].
Defined.
